(** * pkg/encryption/cipher.go: signed cookie envelopes and value ciphers

    A shallow embedding of the Go package [encryption] of oauth2-proxy
    (file [pkg/encryption/cipher.go]) together with the parts of the Go
    standard library the package calls ([encoding/base64], [strconv],
    [strings], [crypto/sha256], [crypto/sha1], [crypto/hmac], [time],
    [crypto/cipher]).

    Conventions.
    - A Go [string] is a Rocq [string]; a Go [[]byte] is a [list byte].
      The conversions [[]byte(s)] and [string(b)] are [bytes_of_string] and
      [string_of_bytes].
    - A Go function that may return an [error] or panic returns a [Result].
    - [rand.Reader] is an explicit [Reader] threaded through the calls that
      draw randomness; [time.Now] reads an explicit [Clock].
    - [cipher.Block] and [cipher.AEAD] are Go interfaces and are records of
      functions here; AES itself and GCM are fields of the class [Crypto]. *)

From Stdlib Require Import Strings.String Strings.Ascii Strings.Byte.
From Stdlib Require Import ZArith List Bool Lia.
From coqutil Require Import Z.bitblast.
Import ListNotations.
Local Open Scope Z_scope.
Local Open Scope list_scope.

(* ================================================================== *)
(** ** Go values: bytes, strings, errors and panics *)

Definition bytes := list byte.

Definition Z_of_byte (b : byte) : Z := Z.of_N (Byte.to_N b).

(** Go's conversion [byte(x)] of an unsigned integer: the low 8 bits. *)
Definition byte_of_Z (z : Z) : byte :=
  match Byte.of_N (Z.to_N (z mod 256)) with
  | Some b => b
  | None => x00
  end.

(** [[]byte(s)] and [string(b)]. *)
Definition bytes_of_string (s : string) : bytes := list_byte_of_string s.
Definition string_of_bytes (b : bytes) : string := string_of_list_byte b.

Definition byte_xor (a b : byte) : byte :=
  byte_of_Z (Z.lxor (Z_of_byte a) (Z_of_byte b)).

Inductive panic : Type :=
| NilPointerDereference
| IndexOutOfRange
| SliceBoundsOutOfRange
| PanicMessage (msg : string).

(** The errors the package and its libraries produce.  [ErrBase64Decode],
    [ErrIV] and [ErrTooShort] are the three [fmt.Errorf] values built in
    cipher.go; the others come from the standard library. *)
Inductive error : Type :=
| CorruptInputError
| ErrSyntax
| ErrRange
| KeySizeError (n : nat)
| ErrReader
| ErrOpen
| ErrNotBlock128
| ErrBase64Decode (cause : error)
| ErrIV (cause : error)
| ErrTooShort (want got : nat).

Inductive Result (A : Type) : Type :=
| Ok (a : A)
| Err (e : error)
| Panic (p : panic).
Arguments Ok {A} a.
Arguments Err {A} e.
Arguments Panic {A} p.

Definition bindR {A B} (r : Result A) (k : A -> Result B) : Result B :=
  match r with
  | Ok a => k a
  | Err e => Err e
  | Panic p => Panic p
  end.

Notation "x <- r ;; k" := (bindR r (fun x => k))
  (at level 61, r at next level, right associativity).

(** Go slice expressions [s[:n]] and [s[n:]] on a slice whose capacity is
    its length.  (With spare capacity [s[:n]] may succeed for [n] above the
    length, but [s[n:]] panics as soon as [n] exceeds the length.) *)
Definition slice_to (s : bytes) (n : nat) : Result bytes :=
  if (n <=? length s)%nat then Ok (firstn n s) else Panic SliceBoundsOutOfRange.
Definition slice_from (s : bytes) (n : nat) : Result bytes :=
  if (n <=? length s)%nat then Ok (skipn n s) else Panic SliceBoundsOutOfRange.

(* ================================================================== *)
(** ** encoding/base64 *)

Definition encodeStd : string :=
  "ABCDEFGHIJKLMNOPQRSTUVWXYZabcdefghijklmnopqrstuvwxyz0123456789+/".
Definition encodeURL : string :=
  "ABCDEFGHIJKLMNOPQRSTUVWXYZabcdefghijklmnopqrstuvwxyz0123456789-_".

(** An [Encoding]: the 64-character alphabet and the padding character
    ([None] is [NoPadding]).  None of the encodings used is strict. *)
Record Encoding : Type := mkEncoding {
  encode : string;
  padChar : option ascii
}.

Definition StdEncoding : Encoding := mkEncoding encodeStd (Some "="%char).
Definition URLEncoding : Encoding := mkEncoding encodeURL (Some "="%char).
Definition RawURLEncoding : Encoding := mkEncoding encodeURL None.

(** [enc.encode[i]] *)
Definition encode_at (enc : Encoding) (i : Z) : ascii :=
  match String.get (Z.to_nat i) (encode enc) with
  | Some c => c
  | None => "000"%char
  end.

Fixpoint index_from (c : ascii) (s : string) (i : Z) : Z :=
  match s with
  | EmptyString => 255
  | String x r => if Ascii.eqb x c then i else index_from c r (i + 1)
  end.

(** [enc.decodeMap[c]]: the position of [c] in the alphabet, 0xff if none. *)
Definition decodeMap (enc : Encoding) (c : ascii) : Z :=
  index_from c (encode enc) 0.

Definition is_pad (enc : Encoding) (c : ascii) : bool :=
  match padChar enc with
  | Some p => Ascii.eqb c p
  | None => false
  end.

Definition pad_string (enc : Encoding) (n : nat) : string :=
  match padChar enc with
  | Some p => string_of_list_ascii (repeat p n)
  | None => EmptyString
  end.

(** [enc.EncodeToString]: three source bytes give four characters; a last
    group of one or two bytes gives two or three characters and padding. *)
Fixpoint EncodeToString (enc : Encoding) (src : bytes) : string :=
  match src with
  | [] => EmptyString
  | [a] =>
      let val := Z.shiftl (Z_of_byte a) 16 in
      String (encode_at enc (Z.land (Z.shiftr val 18) 63))
        (String (encode_at enc (Z.land (Z.shiftr val 12) 63))
           (pad_string enc 2))
  | [a; b] =>
      let val := Z.lor (Z.shiftl (Z_of_byte a) 16) (Z.shiftl (Z_of_byte b) 8) in
      String (encode_at enc (Z.land (Z.shiftr val 18) 63))
        (String (encode_at enc (Z.land (Z.shiftr val 12) 63))
           (String (encode_at enc (Z.land (Z.shiftr val 6) 63))
              (pad_string enc 1)))
  | a :: b :: c :: rest =>
      let val := Z.lor (Z.lor (Z.shiftl (Z_of_byte a) 16)
                              (Z.shiftl (Z_of_byte b) 8)) (Z_of_byte c) in
      String (encode_at enc (Z.land (Z.shiftr val 18) 63))
        (String (encode_at enc (Z.land (Z.shiftr val 12) 63))
           (String (encode_at enc (Z.land (Z.shiftr val 6) 63))
              (String (encode_at enc (Z.land val 63))
                 (EncodeToString enc rest))))
  end.

Definition is_newline (c : ascii) : bool :=
  Ascii.eqb c "010"%char || Ascii.eqb c "013"%char.

Fixpoint skip_newlines (s : string) : string :=
  match s with
  | EmptyString => EmptyString
  | String c r => if is_newline c then skip_newlines r else s
  end.

(** The end of [decodeQuantum]: [dlen] six-bit values (the rest zero) are
    packed into 24 bits and the first [dlen - 1] bytes are written. *)
Definition quantum_bytes (dlen : nat) (dbuf : list Z) : bytes :=
  let val := Z.lor (Z.lor (Z.lor (Z.shiftl (nth 0 dbuf 0) 18)
                                 (Z.shiftl (nth 1 dbuf 0) 12))
                          (Z.shiftl (nth 2 dbuf 0) 6)) (nth 3 dbuf 0) in
  firstn (dlen - 1)
    [byte_of_Z (Z.shiftr val 16); byte_of_Z (Z.shiftr val 8); byte_of_Z val].

(** [decodeQuantum] once it has read a padding character with [j] values in
    the buffer: the padding must be complete and nothing but newlines may
    follow. *)
Definition decode_padding (enc : Encoding) (j : nat) (dbuf : list Z)
    (rest : string) : Result bytes :=
  match j with
  | O | S O => Err CorruptInputError
  | S (S O) =>
      match skip_newlines rest with
      | EmptyString => Err CorruptInputError
      | String c r =>
          if is_pad enc c then
            match skip_newlines r with
            | EmptyString => Ok (quantum_bytes 2 dbuf)
            | String _ _ => Err CorruptInputError
            end
          else Err CorruptInputError
      end
  | _ =>
      match skip_newlines rest with
      | EmptyString => Ok (quantum_bytes j dbuf)
      | String _ _ => Err CorruptInputError
      end
  end.

(** [enc.Decode]: the loop over [decodeQuantum], as one recursion on the
    input.  [j] is the number of values in [dbuf]; newlines are skipped; a
    full buffer yields three bytes; the input may end on a quantum boundary,
    or, without padding, after two or three characters. *)
Fixpoint decode_loop (enc : Encoding) (j : nat) (dbuf : list Z)
    (src : string) : Result bytes :=
  match src with
  | EmptyString =>
      match j with
      | O => Ok []
      | S O => Err CorruptInputError
      | _ =>
          match padChar enc with
          | Some _ => Err CorruptInputError
          | None => Ok (quantum_bytes j dbuf)
          end
      end
  | String c rest =>
      let out := decodeMap enc c in
      if negb (out =? 255) then
        if (j =? 3)%nat then
          tl <- decode_loop enc 0 [] rest ;;
          Ok (quantum_bytes 4 (dbuf ++ [out]) ++ tl)
        else decode_loop enc (S j) (dbuf ++ [out]) rest
      else if is_newline c then decode_loop enc j dbuf rest
      else if is_pad enc c then decode_padding enc j dbuf rest
      else Err CorruptInputError
  end.

(** [enc.DecodeString]; the bytes Go returns next to a non-nil error are
    never used by this package and are not kept. *)
Definition DecodeString (enc : Encoding) (s : string) : Result bytes :=
  decode_loop enc 0 [] s.

(* ================================================================== *)
(** ** strings and strconv *)

(** [strings.Split(s, sep)] for a one-byte separator: the pieces between
    the separators; a string without separator is its single piece. *)
Fixpoint strings_Split (s : string) (sep : ascii) : list string :=
  match s with
  | EmptyString => [EmptyString]
  | String c r =>
      if Ascii.eqb c sep then EmptyString :: strings_Split r sep
      else
        match strings_Split r sep with
        | p :: ps => String c p :: ps
        | [] => [String c EmptyString]
        end
  end.

Fixpoint in_cutset (c : ascii) (cutset : string) : bool :=
  match cutset with
  | EmptyString => false
  | String x r => Ascii.eqb x c || in_cutset c r
  end.

(** [strings.TrimRight(s, cutset)] for an ASCII cutset: [s] without its
    longest suffix of characters of [cutset]. *)
Fixpoint strings_TrimRight (s cutset : string) : string :=
  match s with
  | EmptyString => EmptyString
  | String c r =>
      match strings_TrimRight r cutset with
      | EmptyString =>
          if in_cutset c cutset then EmptyString else String c EmptyString
      | r' => String c r'
      end
  end.

Definition digit_val (c : ascii) : option Z :=
  let n := Z.of_nat (nat_of_ascii c) in
  if (48 <=? n) && (n <=? 57) then Some (n - 48) else None.

Fixpoint parse_digits (s : string) (acc : Z) : option Z :=
  match s with
  | EmptyString => Some acc
  | String c r =>
      match digit_val c with
      | Some d => parse_digits r (acc * 10 + d)
      | None => None
      end
  end.

(** [strconv.Atoi] on a platform whose [int] has 64 bits: an optional sign,
    then one or more decimal digits, and a value that fits an int64. *)
Definition strconv_Atoi (s : string) : Result Z :=
  match s with
  | EmptyString => Err ErrSyntax
  | String c r =>
      let neg := Ascii.eqb c "-"%char in
      let body := if neg || Ascii.eqb c "+"%char then r else s in
      match body with
      | EmptyString => Err ErrSyntax
      | String _ _ =>
          match parse_digits body 0 with
          | None => Err ErrSyntax
          | Some n =>
              let v := if neg then - n else n in
              if (- 2 ^ 63 <=? v) && (v <? 2 ^ 63) then Ok v else Err ErrRange
          end
      end
  end.

Definition digit_char (d : Z) : ascii := ascii_of_nat (Z.to_nat (48 + d)).

Fixpoint format_digits (fuel : nat) (n : Z) (acc : string) : string :=
  match fuel with
  | O => acc
  | S fuel' =>
      let acc' := String (digit_char (n mod 10)) acc in
      if n <? 10 then acc' else format_digits fuel' (n / 10) acc'
  end.

(** [fmt.Sprintf("%d", n)]: the decimal digits of [n], with a minus sign for
    a negative number. *)
Definition Sprintf_d (n : Z) : string :=
  let digits m := format_digits (S (Z.to_nat (Z.log2 m))) m EmptyString in
  if n <? 0 then String "-"%char (digits (- n)) else digits n.

(* ================================================================== *)
(** ** crypto/sha256, crypto/sha1 and crypto/hmac *)

Definition add32 (x y : Z) : Z := (x + y) mod 2 ^ 32.
Definition rotr32 (n x : Z) : Z :=
  Z.lor (Z.shiftr x n) ((Z.shiftl x (32 - n)) mod 2 ^ 32).
Definition rotl32 (n x : Z) : Z :=
  Z.lor ((Z.shiftl x n) mod 2 ^ 32) (Z.shiftr x (32 - n)).
Definition not32 (x : Z) : Z := Z.lxor x 4294967295.

(** Big-endian words. *)
Definition be_word (bs : bytes) : Z :=
  fold_left (fun acc b => acc * 256 + Z_of_byte b) bs 0.

Fixpoint be_bytes (n : nat) (x : Z) : bytes :=
  match n with
  | O => []
  | S n' => be_bytes n' (x / 256) ++ [byte_of_Z x]
  end.

Fixpoint chunks (fuel n : nat) (l : bytes) : list bytes :=
  match fuel with
  | O => []
  | S fuel' =>
      match l with
      | [] => []
      | _ :: _ => firstn n l :: chunks fuel' n (skipn n l)
      end
  end.

(** The padding shared by SHA-1 and SHA-256: a one bit, zeros up to 56
    modulo 64, and the length in bits as a 64-bit big-endian number. *)
Definition md_pad (msg : bytes) : bytes :=
  let len := Z.of_nat (length msg) in
  msg ++ [x80] ++ repeat x00 (Z.to_nat ((55 - len) mod 64))
      ++ be_bytes 8 ((len * 8) mod 2 ^ 64).

Definition block_words (blk : bytes) : list Z :=
  map be_word (chunks 16 4 blk).

(** The message schedule is built most recent word first: [w] holds
    W(t-1), W(t-2), ... *)
Fixpoint schedule (n : nat) (next : list Z -> Z) (w : list Z) : list Z :=
  match n with
  | O => w
  | S n' => schedule n' next (next w :: w)
  end.

(** The constants of SHA-256 as FIPS 180-4 defines them: the first 32 bits
    of the fractional parts of the cube roots of the first 64 primes, and,
    for the initial hash value, of the square roots of the first 8. *)
Definition is_prime (n : Z) : bool :=
  (1 <? n) && forallb (fun d => negb (n mod d =? 0))
                      (map Z.of_nat (seq 2 (Z.to_nat n - 2))).

Definition first_primes : list Z :=
  Eval vm_compute in filter is_prime (map Z.of_nat (seq 2 310)).

(** The integer cube root, bit by bit from the top. *)
Fixpoint cube_root (bits : nat) (r n : Z) : Z :=
  match bits with
  | O => r
  | S bits' =>
      let c := r + 2 ^ Z.of_nat bits' in
      if c * c * c <=? n then cube_root bits' c n else cube_root bits' r n
  end.

Definition sha256_K : list Z :=
  Eval vm_compute in
    map (fun p => cube_root 36 0 (p * 2 ^ 96) mod 2 ^ 32) first_primes.

Definition sha256_init : list Z :=
  Eval vm_compute in
    map (fun p => Z.sqrt (p * 2 ^ 64) mod 2 ^ 32) (firstn 8 first_primes).

Definition sha256_next (w : list Z) : Z :=
  let s0 x := Z.lxor (Z.lxor (rotr32 7 x) (rotr32 18 x)) (Z.shiftr x 3) in
  let s1 x := Z.lxor (Z.lxor (rotr32 17 x) (rotr32 19 x)) (Z.shiftr x 10) in
  add32 (add32 (s1 (nth 1 w 0)) (nth 6 w 0))
        (add32 (s0 (nth 14 w 0)) (nth 15 w 0)).

Definition sha256_round (st : list Z) (kw : Z * Z) : list Z :=
  match st with
  | [a; b; c; d; e; f; g; h] =>
      let S1 := Z.lxor (Z.lxor (rotr32 6 e) (rotr32 11 e)) (rotr32 25 e) in
      let ch := Z.lxor (Z.land e f) (Z.land (not32 e) g) in
      let t1 := add32 (add32 (add32 h S1) (add32 ch (fst kw))) (snd kw) in
      let S0 := Z.lxor (Z.lxor (rotr32 2 a) (rotr32 13 a)) (rotr32 22 a) in
      let maj := Z.lxor (Z.lxor (Z.land a b) (Z.land a c)) (Z.land b c) in
      let t2 := add32 S0 maj in
      [add32 t1 t2; a; b; c; add32 d t1; e; f; g]
  | _ => st
  end.

Definition sha256_block (h : list Z) (blk : bytes) : list Z :=
  let w := rev (schedule 48 sha256_next (rev (block_words blk))) in
  let st := fold_left sha256_round (combine sha256_K w) h in
  map (fun p => add32 (fst p) (snd p)) (combine h st).

Definition sha256_Sum (msg : bytes) : bytes :=
  let p := md_pad msg in
  flat_map (be_bytes 4) (fold_left sha256_block (chunks (length p) 64 p) sha256_init).

Definition sha1_init : list Z :=
  [0x67452301; 0xEFCDAB89; 0x98BADCFE; 0x10325476; 0xC3D2E1F0].

Definition sha1_next (w : list Z) : Z :=
  rotl32 1 (Z.lxor (Z.lxor (nth 2 w 0) (nth 7 w 0))
                   (Z.lxor (nth 13 w 0) (nth 15 w 0))).

Definition sha1_round (st : list Z * nat) (wt : Z) : list Z * nat :=
  match st with
  | ([a; b; c; d; e], t) =>
      let fk :=
        if (t <? 20)%nat then
          (Z.lor (Z.land b c) (Z.land (not32 b) d), 0x5A827999)
        else if (t <? 40)%nat then
          (Z.lxor (Z.lxor b c) d, 0x6ED9EBA1)
        else if (t <? 60)%nat then
          (Z.lor (Z.lor (Z.land b c) (Z.land b d)) (Z.land c d), 0x8F1BBCDC)
        else (Z.lxor (Z.lxor b c) d, 0xCA62C1D6) in
      let tmp := add32 (add32 (add32 (rotl32 5 a) (fst fk))
                              (add32 e (snd fk))) wt in
      ([tmp; a; rotl32 30 b; c; d], S t)
  | _ => st
  end.

Definition sha1_block (h : list Z) (blk : bytes) : list Z :=
  let w := rev (schedule 64 sha1_next (rev (block_words blk))) in
  let st := fst (fold_left sha1_round w (h, O)) in
  map (fun p => add32 (fst p) (snd p)) (combine h st).

Definition sha1_Sum (msg : bytes) : bytes :=
  let p := md_pad msg in
  flat_map (be_bytes 4) (fold_left sha1_block (chunks (length p) 64 p) sha1_init).

(** A [hash.Hash] as this package uses it: written to, then summed once.
    [hash_Sum] is the digest of everything written. *)
Record Hash : Type := mkHash {
  hash_Size : nat;
  hash_BlockSize : nat;
  hash_Sum : bytes -> bytes
}.

Definition sha256_New : Hash := mkHash 32 64 sha256_Sum.
Definition sha1_New : Hash := mkHash 20 64 sha1_Sum.

(** The state of an HMAC: the two padded keys and the bytes written. *)
Record hmac : Type := mkHmac {
  hmac_hash : Hash;
  hmac_ipad : bytes;
  hmac_opad : bytes;
  hmac_written : bytes
}.

(** [hmac.New]: a key longer than the block is hashed first; the key is
    then zero-padded to the block and xor-ed with 0x36 and 0x5c. *)
Definition hmac_New (h : Hash) (key : bytes) : hmac :=
  let bs := hash_BlockSize h in
  let key' := if (bs <? length key)%nat then hash_Sum h key else key in
  let padded := firstn bs (key' ++ repeat x00 bs) in
  mkHmac h (map (fun b => byte_xor b x36) padded)
           (map (fun b => byte_xor b x5c) padded) [].

Definition hmac_Write (m : hmac) (p : bytes) : hmac :=
  mkHmac (hmac_hash m) (hmac_ipad m) (hmac_opad m) (hmac_written m ++ p).

(** [h.Sum(b)]: [b] followed by H(opad ++ H(ipad ++ message)). *)
Definition hmac_Sum (m : hmac) (b : bytes) : bytes :=
  let H := hash_Sum (hmac_hash m) in
  b ++ H (hmac_opad m ++ H (hmac_ipad m ++ hmac_written m)).

Fixpoint bytes_eqb (a b : bytes) : bool :=
  match a, b with
  | [], [] => true
  | x :: a', y :: b' => Byte.eqb x y && bytes_eqb a' b'
  | _, _ => false
  end.

(** [hmac.Equal]: equality of the two MACs (in constant time for equal
    lengths, which a functional model does not show). *)
Definition hmac_Equal (mac1 mac2 : bytes) : bool := bytes_eqb mac1 mac2.

(* ================================================================== *)
(** ** time *)

(** An instant is its number of nanoseconds since the Unix epoch, and a
    [Duration] a number of nanoseconds in an int64.  Instants are not
    bounded: the model covers the instants for which Go's [Time] arithmetic
    neither wraps nor saturates. *)
Definition Time := Z.
Definition Duration := Z.

Definition wrap64 (z : Z) : Z := (z + 2 ^ 63) mod 2 ^ 64 - 2 ^ 63.

(** Multiplication of two int64 values, as in [expiration*-1]. *)
Definition Duration_mul (a b : Duration) : Duration := wrap64 (a * b).

Definition time_Second : Duration := 1000000000.
Definition time_Minute : Duration := 60 * time_Second.

(** [time.Time{}]: January 1, year 1, 00:00:00 UTC. *)
Definition zeroTime : Time := - 62135596800 * time_Second.

(** [time.Unix(sec, nsec)] and [t.Unix()] *)
Definition time_Unix (sec nsec : Z) : Time := sec * time_Second + nsec.
Definition Time_Unix (t : Time) : Z := t / time_Second.

Definition Time_Add (t : Time) (d : Duration) : Time := t + d.
Definition Time_After (t u : Time) : bool := u <? t.
Definition Time_Before (t u : Time) : bool := t <? u.

(** The clock [time.Now] reads: its successive readings. *)
Definition Clock := nat -> Time.
Definition time_Now (clk : Clock) : Time * Clock :=
  (clk O, fun n => clk (S n)).

(** A clock that stands still at [now]. *)
Definition clock_at (now : Time) : Clock := fun _ => now.

(* ================================================================== *)
(** ** SecretBytes *)

Definition SecretBytes (secret : string) : bytes :=
  match DecodeString RawURLEncoding (strings_TrimRight secret "=") with
  | Ok b =>
      if existsb (fun i => (length b =? i)%nat) [16; 24; 32]%nat
      then b
      else bytes_of_string secret
  | _ => bytes_of_string secret
  end.

(* ================================================================== *)
(** ** The signed envelope: value | timestamp | signature *)

(** The two fields of [http.Cookie] that [Validate] reads. *)
Record Cookie : Type := mkCookie {
  Name : string;
  Value : string
}.

Definition cookieSignature (signer : Hash) (args : list string)
    : Result string :=
  match args with
  | [] => Panic IndexOutOfRange
  | key :: rest =>
      let h := hmac_New signer (bytes_of_string key) in
      let h := fold_left (fun h arg => hmac_Write h (bytes_of_string arg))
                         rest h in
      Ok (EncodeToString URLEncoding (hmac_Sum h []))
  end.

Definition checkHmac (input expected : string) : bool :=
  match DecodeString URLEncoding input with
  | Ok inputMAC =>
      match DecodeString URLEncoding expected with
      | Ok expectedMAC => hmac_Equal inputMAC expectedMAC
      | _ => false
      end
  | _ => false
  end.

Definition checkSignature (signature : string) (args : list string)
    : Result bool :=
  checkSig <- cookieSignature sha256_New args ;;
  if checkHmac signature checkSig then Ok true
  else
    legacySig <- cookieSignature sha1_New args ;;
    Ok (checkHmac signature legacySig).

(** [Validate] returns [(value, t, ok)]; a nil [value] is [None].  The
    named results start at their zero values and a bare [return] returns
    what has been assigned so far. *)
Definition Validate (cookie : option Cookie) (seed : string)
    (expiration : Duration) (clk : Clock)
    : Result (option bytes * Time * bool) :=
  match cookie with
  | None => Panic NilPointerDereference
  | Some cookie =>
      match strings_Split (Value cookie) "|"%char with
      | [p0; p1; p2] =>
          sigok <- checkSignature p2 [seed; Name cookie; p0; p1] ;;
          if sigok : bool then
            match strconv_Atoi p1 with
            | Ok ts =>
                let t := time_Unix ts 0 in
                let (now1, clk1) := time_Now clk in
                if Time_After t (Time_Add now1 (Duration_mul expiration (-1)))
                   && Time_Before t (Time_Add (fst (time_Now clk1))
                                              (Duration_mul time_Minute 5))
                then
                  match DecodeString URLEncoding p0 with
                  | Ok rawValue => Ok (Some rawValue, t, true)
                  | _ => Ok (None, t, false)
                  end
                else Ok (None, t, false)
            | _ => Ok (None, zeroTime, false)
            end
          else Ok (None, zeroTime, false)
      | _ => Ok (None, zeroTime, false)
      end
  end.

Definition SignedValue (seed key : string) (value : bytes) (now : Time)
    : Result string :=
  let encodedValue := EncodeToString URLEncoding value in
  let timeStr := Sprintf_d (Time_Unix now) in
  sig <- cookieSignature sha256_New [seed; key; encodedValue; timeStr] ;;
  Ok (encodedValue ++ "|" ++ timeStr ++ "|" ++ sig)%string.

(* ================================================================== *)
(** ** Randomness *)

(** [rand.Reader]: the bytes it will deliver, [None] where a read fails. *)
Definition Reader := nat -> option byte.

(** An operation that may draw from [rand.Reader]. *)
Definition M (A : Type) : Type := Reader -> Result A * Reader.

Definition pureM {A} (r : Result A) : M A := fun rd => (r, rd).

(** [io.ReadFull(rand.Reader, buf)] for a buffer of [n] bytes. *)
Fixpoint io_ReadFull (n : nat) : M bytes :=
  fun rd =>
    match n with
    | O => (Ok [], rd)
    | S n' =>
        match rd O with
        | None => (Err ErrReader, rd)
        | Some b =>
            let (res, rd') := io_ReadFull n' (fun i => rd (S i)) in
            (bs <- res ;; Ok (b :: bs), rd')
        end
    end.

(* ================================================================== *)
(** ** crypto/cipher: blocks, CFB streams and AEADs *)

(** [cipher.Block], of which the package uses [BlockSize] and [Encrypt].
    [Block_Encrypt] maps a block to its encryption. *)
Record Block : Type := mkBlock {
  BlockSize : nat;
  Block_Encrypt : bytes -> bytes
}.

(** [cipher.AEAD].  [Seal dst nonce plaintext additionalData] and
    [Open dst nonce ciphertext additionalData] append to [dst]. *)
Record AEAD : Type := mkAEAD {
  NonceSize : nat;
  Overhead : nat;
  Seal : bytes -> bytes -> bytes -> bytes -> Result bytes;
  Open : bytes -> bytes -> bytes -> bytes -> Result bytes
}.

(** The contract of an AEAD: what is sealed under a nonce of the right
    size is appended to [dst] and opens to the plaintext. *)
Definition AEAD_correct (g : AEAD) : Prop :=
  forall dst nonce plaintext ad,
    length nonce = NonceSize g ->
    exists ct,
      Seal g dst nonce plaintext ad = Ok (dst ++ ct) /\
      Open g [] nonce ct ad = Ok plaintext.

(** The two primitives taken from the Go library as they are: the AES
    block function under a key, and [cipher.NewGCM]. *)
Class Crypto : Type := {
  aes_encryptBlock : bytes -> bytes -> bytes;
  cipher_NewGCM : Block -> Result AEAD
}.

Definition aes_BlockSize : nat := 16.

(** [aes.NewCipher]: the key must have 16, 24 or 32 bytes. *)
Definition aes_NewCipher `{Crypto} (key : bytes) : Result Block :=
  let k := length key in
  if (k =? 16)%nat || (k =? 24)%nat || (k =? 32)%nat
  then Ok (mkBlock aes_BlockSize (aes_encryptBlock key))
  else Err (KeySizeError k).

(** The state of a CFB stream, as in crypto/cipher. *)
Record cfb : Type := mkCfb {
  cfb_b : Block;
  cfb_next : bytes;
  cfb_out : bytes;
  cfb_outUsed : nat;
  cfb_decrypt : bool
}.

Definition newCFB (block : Block) (iv : bytes) (decrypt : bool) : Result cfb :=
  let blockSize := BlockSize block in
  if (length iv =? blockSize)%nat then
    Ok (mkCfb block iv (repeat x00 blockSize) blockSize decrypt)
  else Panic (PanicMessage "cipher.newCFB: IV length must equal block size").

Definition NewCFBEncrypter (block : Block) (iv : bytes) : Result cfb :=
  newCFB block iv false.
Definition NewCFBDecrypter (block : Block) (iv : bytes) : Result cfb :=
  newCFB block iv true.

Fixpoint list_set {A} (n : nat) (v : A) (l : list A) : list A :=
  match l, n with
  | [], _ => []
  | _ :: l', O => v :: l'
  | x :: l', S n' => x :: list_set n' v l'
  end.

(** [x.XORKeyStream(dst, src)], one byte at a time: a used-up key stream
    block is replaced by the encryption of [next], and [next] collects the
    ciphertext, which is the output when encrypting and the input when
    decrypting.  The result is [dst]. *)
Fixpoint cfb_XORKeyStream (x : cfb) (src : bytes) : bytes :=
  match src with
  | [] => []
  | s :: rest =>
      let refill := (cfb_outUsed x =? BlockSize (cfb_b x))%nat in
      let out := if refill then Block_Encrypt (cfb_b x) (cfb_next x)
                 else cfb_out x in
      let used := if refill then O else cfb_outUsed x in
      let d := byte_xor s (nth used out x00) in
      let next := list_set used (if cfb_decrypt x then s else d) (cfb_next x) in
      d :: cfb_XORKeyStream
             (mkCfb (cfb_b x) next out (S used) (cfb_decrypt x)) rest
  end.

(* ================================================================== *)
(** ** The ciphers *)

(** The dynamic types behind the interface [Cipher].  [Base64Cipher] holds
    another [Cipher] in its field [Cipher]; [CFBCipher] and [GCMCipher]
    embed a [cipher.Block].  The three embed [DefaultCipher], which has no
    fields. *)
Inductive Cipher : Type :=
| DefaultCipher
| Base64Cipher (inner : Cipher)
| CFBCipher (block : Block)
| GCMCipher (block : Block).

(** [codecFunc]: an encrypt or decrypt method value. *)
Definition codecFunc : Type := bytes -> M bytes.

(** [into(f, s)] for the pointer [s], [None] when nil: the string [s]
    points to afterwards, and the error returned ([Ok tt] is nil). *)
Definition into (f : codecFunc) (s : option string)
    : Reader -> (option string * Result unit) * Reader :=
  fun rd =>
    match s with
    | None => ((None, Ok tt), rd)
    | Some str =>
        if String.eqb str EmptyString then ((Some str, Ok tt), rd)
        else
          match f (bytes_of_string str) rd with
          | (Ok d, rd') => ((Some (string_of_bytes d), Ok tt), rd')
          | (Err e, rd') => ((Some str, Err e), rd')
          | (Panic p, rd') => ((Some str, Panic p), rd')
          end
    end.

(** *** DefaultCipher *)

Definition DefaultCipher_Encrypt (value : bytes) : M bytes :=
  pureM (Ok value).

Definition DefaultCipher_Decrypt (ciphertext : bytes) : Result bytes :=
  Ok ciphertext.

Definition DefaultCipher_EncryptInto (s : option string)
    : Reader -> (option string * Result unit) * Reader :=
  into DefaultCipher_Encrypt s.

Definition DefaultCipher_DecryptInto (s : option string)
    : Reader -> (option string * Result unit) * Reader :=
  into (fun b => pureM (DefaultCipher_Decrypt b)) s.

(** *** Base64Cipher, given the methods of the cipher in its field *)

Definition Base64Cipher_Encrypt (inner_Encrypt : bytes -> M bytes)
    (value : bytes) : M bytes :=
  fun rd =>
    match inner_Encrypt value rd with
    | (Ok encrypted, rd') =>
        (Ok (bytes_of_string (EncodeToString StdEncoding encrypted)), rd')
    | (Err e, rd') => (Err e, rd')
    | (Panic p, rd') => (Panic p, rd')
    end.

Definition Base64Cipher_Decrypt (inner_Decrypt : bytes -> Result bytes)
    (ciphertext : bytes) : Result bytes :=
  match DecodeString StdEncoding (string_of_bytes ciphertext) with
  | Ok encrypted => inner_Decrypt encrypted
  | Err e => Err (ErrBase64Decode e)
  | Panic p => Panic p
  end.

(** *** CFBCipher *)

Definition NewCFBCipher `{Crypto} (secret : bytes) : Result Cipher :=
  c <- aes_NewCipher secret ;; Ok (CFBCipher c).

Definition CFBCipher_Encrypt (c : Block) (value : bytes) : M bytes :=
  fun rd =>
    match io_ReadFull aes_BlockSize rd with
    | (Ok iv, rd') =>
        (stream <- NewCFBEncrypter c iv ;;
         Ok (iv ++ cfb_XORKeyStream stream value), rd')
    | (Err e, rd') => (Err (ErrIV e), rd')
    | (Panic p, rd') => (Panic p, rd')
    end.

Definition CFBCipher_Decrypt (c : Block) (ciphertext : bytes) : Result bytes :=
  if (length ciphertext <? aes_BlockSize)%nat then
    Err (ErrTooShort aes_BlockSize (length ciphertext))
  else
    iv <- slice_to ciphertext aes_BlockSize ;;
    ciphertext <- slice_from ciphertext aes_BlockSize ;;
    stream <- NewCFBDecrypter c iv ;;
    Ok (cfb_XORKeyStream stream ciphertext).

(** *** GCMCipher *)

Definition NewGCMCipher `{Crypto} (secret : bytes) : Result Cipher :=
  c <- aes_NewCipher secret ;; Ok (GCMCipher c).

Definition GCMCipher_Encrypt `{Crypto} (c : Block) (value : bytes) : M bytes :=
  fun rd =>
    match cipher_NewGCM c with
    | Ok gcm =>
        match io_ReadFull (NonceSize gcm) rd with
        | (Ok nonce, rd') => (Seal gcm nonce nonce value [], rd')
        | (Err e, rd') => (Err e, rd')
        | (Panic p, rd') => (Panic p, rd')
        end
    | Err e => (Err e, rd)
    | Panic p => (Panic p, rd)
    end.

Definition GCMCipher_Decrypt `{Crypto} (c : Block) (ciphertext : bytes)
    : Result bytes :=
  gcm <- cipher_NewGCM c ;;
  let nonceSize := NonceSize gcm in
  nonce <- slice_to ciphertext nonceSize ;;
  ciphertext <- slice_from ciphertext nonceSize ;;
  plaintext <- Open gcm [] nonce ciphertext [] ;;
  Ok plaintext.

(** *** The interface [Cipher]

    A call through the interface runs the method of the dynamic type.
    [Encrypt] and [Decrypt] are declared on each of the four types. *)
Fixpoint Encrypt `{Crypto} (c : Cipher) (value : bytes) : M bytes :=
  match c with
  | DefaultCipher => DefaultCipher_Encrypt value
  | Base64Cipher inner => Base64Cipher_Encrypt (Encrypt inner) value
  | CFBCipher block => CFBCipher_Encrypt block value
  | GCMCipher block => GCMCipher_Encrypt block value
  end.

Fixpoint Decrypt `{Crypto} (c : Cipher) (ciphertext : bytes) : Result bytes :=
  match c with
  | DefaultCipher => DefaultCipher_Decrypt ciphertext
  | Base64Cipher inner => Base64Cipher_Decrypt (Decrypt inner) ciphertext
  | CFBCipher block => CFBCipher_Decrypt block ciphertext
  | GCMCipher block => GCMCipher_Decrypt block ciphertext
  end.

(** [EncryptInto] and [DecryptInto] are declared on [*DefaultCipher] only.
    The other three types have them by embedding [DefaultCipher]: Go
    promotes the method, and the promoted method runs with the embedded
    [DefaultCipher] as its receiver, so the [c.Encrypt] in its body is
    [DefaultCipher]'s. *)
Definition EncryptInto (c : Cipher) (s : option string)
    : Reader -> (option string * Result unit) * Reader :=
  match c with
  | DefaultCipher => DefaultCipher_EncryptInto s
  | Base64Cipher _ | CFBCipher _ | GCMCipher _ => DefaultCipher_EncryptInto s
  end.

Definition DecryptInto (c : Cipher) (s : option string)
    : Reader -> (option string * Result unit) * Reader :=
  match c with
  | DefaultCipher => DefaultCipher_DecryptInto s
  | Base64Cipher _ | CFBCipher _ | GCMCipher _ => DefaultCipher_DecryptInto s
  end.

Definition NewBase64Cipher (initCipher : bytes -> Result Cipher)
    (secret : bytes) : Result Cipher :=
  c <- initCipher secret ;; Ok (Base64Cipher c).

(** What [EncryptInto] and [DecryptInto] would be if they went through the
    variant's own [Encrypt] and [Decrypt], as the comments on
    [DefaultCipher] describe them. *)
Definition EncryptInto_own `{Crypto} (c : Cipher) (s : option string)
    : Reader -> (option string * Result unit) * Reader :=
  into (Encrypt c) s.

Definition DecryptInto_own `{Crypto} (c : Cipher) (s : option string)
    : Reader -> (option string * Result unit) * Reader :=
  into (fun b => pureM (Decrypt c b)) s.

(* ================================================================== *)
(** ** An instance of [Crypto] to run the model

    A block function and an AEAD with the interface of AES and of GCM,
    built from SHA-256.  They stand in for the Go library where a concrete
    [Crypto] is needed to evaluate the ciphers; the theorems below hold for
    every [Crypto]. *)

Definition pad_to (n : nat) (l : bytes) : bytes := firstn n (l ++ repeat x00 n).

Definition demo_encryptBlock (key blk : bytes) : bytes :=
  pad_to 16 (sha256_Sum (key ++ blk)).

(** Counter mode: byte [i] of the text is xor-ed with byte [i mod 16] of
    the encryption of the nonce followed by the counter [2 + i / 16]. *)
Fixpoint ctr_xor (b : Block) (nonce : bytes) (i : nat) (text : bytes) : bytes :=
  match text with
  | [] => []
  | x :: rest =>
      let ks := Block_Encrypt b (nonce ++ be_bytes 4 (Z.of_nat (2 + i / 16))) in
      byte_xor x (nth (i mod 16) ks x00) :: ctr_xor b nonce (S i) rest
  end.

Definition demo_tag (b : Block) (nonce ct ad : bytes) : bytes :=
  pad_to 16 (sha256_Sum (Block_Encrypt b (nonce ++ be_bytes 4 1) ++ ad ++ ct)).

Definition demo_Seal (b : Block) (dst nonce plaintext ad : bytes) : Result bytes :=
  if (length nonce =? 12)%nat then
    let ct := ctr_xor b nonce O plaintext in
    Ok (dst ++ ct ++ demo_tag b nonce ct ad)
  else Panic (PanicMessage "crypto/cipher: incorrect nonce length given to GCM").

Definition demo_Open (b : Block) (dst nonce ciphertext ad : bytes) : Result bytes :=
  if (length nonce =? 12)%nat then
    if (length ciphertext <? 16)%nat then Err ErrOpen
    else
      let n := (length ciphertext - 16)%nat in
      let ct := firstn n ciphertext in
      if bytes_eqb (skipn n ciphertext) (demo_tag b nonce ct ad)
      then Ok (dst ++ ctr_xor b nonce O ct)
      else Err ErrOpen
  else Panic (PanicMessage "crypto/cipher: incorrect nonce length given to GCM").

Definition demo_NewGCM (b : Block) : Result AEAD :=
  if (BlockSize b =? 16)%nat then
    Ok (mkAEAD 12 16 (demo_Seal b) (demo_Open b))
  else Err ErrNotBlock128.

Definition demo_Crypto : Crypto :=
  {| aes_encryptBlock := demo_encryptBlock; cipher_NewGCM := demo_NewGCM |}.

(** A reader that delivers the bytes 0, 1, 2, ... and never fails. *)
Definition counting_Reader : Reader :=
  fun i => Some (byte_of_Z (Z.of_nat i)).

(** A reader that fails at once. *)
Definition failing_Reader : Reader := fun _ => None.

(* ================================================================== *)
(** ** Auxiliary predicates used in the statements *)

(** The alphabet of [enc] is decoded position by position, has no
    separator character, and the padding character is outside of it. *)
Definition alphabet_ok (enc : Encoding) : bool :=
  forallb (fun i => let c := encode_at enc i in
                    (decodeMap enc c =? i) && negb (Ascii.eqb c "|"%char))
          (map Z.of_nat (seq 0 64))
  && match padChar enc with
     | Some p => (decodeMap enc p =? 255) && negb (is_newline p)
                 && negb (Ascii.eqb p "|"%char)
     | None => true
     end.

Fixpoint no_char (c : ascii) (s : string) : bool :=
  match s with
  | EmptyString => true
  | String x r => negb (Ascii.eqb x c) && no_char c r
  end.

(** The reader never fails. *)
Definition never_fails (rd : Reader) : Prop := forall i, rd i <> None.

(** [cipher.NewGCM] accepts every block of 16 bytes and returns an AEAD
    that keeps its contract. *)
Definition GCM_correct `{Crypto} : Prop :=
  forall b, BlockSize b = 16%nat ->
    exists g, cipher_NewGCM b = Ok g /\ AEAD_correct g.

(** Decrypting inverts encrypting for the cipher [c]: whatever [Encrypt]
    returns decrypts to the payload, and [Encrypt] does return when the
    reader delivers. *)
Definition roundtrips `{Crypto} (c : Cipher) : Prop :=
  forall v rd,
    (forall ct rd', Encrypt c v rd = (Ok ct, rd') -> Decrypt c ct = Ok v) /\
    (never_fails rd -> exists ct rd', Encrypt c v rd = (Ok ct, rd')).

(** Three bytes packed into 24 bits. *)
Definition pack3 (a b c : Z) : Z :=
  Z.lor (Z.lor (Z.shiftl (Z.land a (Z.ones 8)) 16)
               (Z.shiftl (Z.land b (Z.ones 8)) 8)) (Z.land c (Z.ones 8)).

(** Bytes in hexadecimal, to state known answers. *)
Definition hex_digit (d : Z) : ascii :=
  ascii_of_nat (Z.to_nat (if d <? 10 then 48 + d else 87 + d)).

Fixpoint hex (b : bytes) : string :=
  match b with
  | [] => EmptyString
  | x :: r =>
      String (hex_digit (Z_of_byte x / 16))
        (String (hex_digit (Z_of_byte x mod 16)) (hex r))
  end.

(** HMAC of a message under a key, in one call. *)
Definition HMAC (h : Hash) (key msg : bytes) : bytes :=
  hmac_Sum (hmac_Write (hmac_New h key) msg) [].

(* ================================================================== *)
(** ** A cookie to evaluate the envelope on

    The cookie [_oauth2_proxy] that [SignedValue] issues for the value
    [user@example.com] under the seed [seed-secret] at Unix time
    1600000000, and its three fields. *)

Definition ex_seed : string := "seed-secret".
Definition ex_name : string := "_oauth2_proxy".
Definition ex_value : bytes := bytes_of_string "user@example.com".
Definition ex_T : Z := 1600000000.
Definition ex_p0 : string := "dXNlckBleGFtcGxlLmNvbQ==".
Definition ex_p1 : string := "1600000000".
Definition ex_p2 : string := "Ltks7ghDBCkptsGy4SvZQhcg0Wd9AtCxnRiFGcQ56Bg=".
Definition ex_cookie : string :=
  "dXNlckBleGFtcGxlLmNvbQ==|1600000000|Ltks7ghDBCkptsGy4SvZQhcg0Wd9AtCxnRiFGcQ56Bg=".

(** One hour, as a [Duration]. *)
Definition one_hour : Duration := 60 * time_Minute.

(* ================================================================== *)
(** ** Predicates for the further properties *)

(** The number of occurrences of a character. *)
Fixpoint count_char (c : ascii) (s : string) : nat :=
  match s with
  | EmptyString => O
  | String x r => (if Ascii.eqb x c then 1 else 0) + count_char c r
  end.

(** A string without its carriage returns and line feeds. *)
Fixpoint strip_newlines (s : string) : string :=
  match s with
  | EmptyString => EmptyString
  | String c r =>
      if is_newline c then strip_newlines r else String c (strip_newlines r)
  end.

(** Every character of the string is in the alphabet of [enc]. *)
Fixpoint all_symbols (enc : Encoding) (s : string) : bool :=
  match s with
  | EmptyString => true
  | String c r => negb (decodeMap enc c =? 255) && all_symbols enc r
  end.

(** The alphabet, padding and newlines of [enc] are distinct, and '=' is
    not in the alphabet. *)
Definition alphabet_plain (enc : Encoding) : bool :=
  forallb (fun i => negb (Ascii.eqb (encode_at enc i) "="%char))
          (map Z.of_nat (seq 0 64))
  && (decodeMap enc "010"%char =? 255) && (decodeMap enc "013"%char =? 255)
  && (decodeMap enc "="%char =? 255)
  && match padChar enc with
     | Some p => Ascii.eqb p "="%char
     | None => true
     end.

(** Every block in the cipher has the block size of AES. *)
Fixpoint aes_blocks (c : Cipher) : Prop :=
  match c with
  | DefaultCipher => True
  | Base64Cipher inner => aes_blocks inner
  | CFBCipher b => BlockSize b = aes_BlockSize
  | GCMCipher b => BlockSize b = aes_BlockSize
  end.

(** No [GCMCipher] occurs in the cipher. *)
Fixpoint gcm_free (c : Cipher) : Prop :=
  match c with
  | DefaultCipher => True
  | Base64Cipher inner => gcm_free inner
  | CFBCipher _ => True
  | GCMCipher _ => False
  end.

(** The window of [Validate] for the timestamp [T]: after the first
    reading of the clock less the expiration, and before the second reading
    plus five minutes. *)
Definition in_window (clk : Clock) (expiration : Duration) (T : Z) : Prop :=
  clk 0%nat - expiration < T * time_Second /\
  T * time_Second < clk 1%nat + 5 * time_Minute.

(* ================================================================== *)
(** * Properties *)

(** ** Bytes *)

Lemma Z_of_byte_range (b : byte) : 0 <= Z_of_byte b < 256.
Proof.
  unfold Z_of_byte. pose proof (Byte.to_N_bounded b). lia.
Qed.

Lemma byte_of_Z_of_byte (b : byte) : byte_of_Z (Z_of_byte b) = b.
Proof.
  unfold byte_of_Z. rewrite Z.mod_small by apply Z_of_byte_range.
  unfold Z_of_byte. rewrite N2Z.id, Byte.of_to_N. reflexivity.
Qed.

Lemma byte_of_Z_land (z : Z) : byte_of_Z (Z.land z 255) = byte_of_Z z.
Proof.
  unfold byte_of_Z. change 255 with (Z.ones 8).
  rewrite Z.land_ones by lia. change (2 ^ 8) with 256.
  rewrite Z.mod_mod by lia. reflexivity.
Qed.

Lemma Z_of_byte_land (b : byte) : Z.land (Z_of_byte b) 255 = Z_of_byte b.
Proof.
  change 255 with (Z.ones 8). rewrite Z.land_ones by lia.
  apply Z.mod_small, Z_of_byte_range.
Qed.

Lemma Z_of_byte_of_Z (z : Z) : 0 <= z < 256 -> Z_of_byte (byte_of_Z z) = z.
Proof.
  intros Hz. unfold byte_of_Z, Z_of_byte. rewrite Z.mod_small by lia.
  destruct (Byte.of_N (Z.to_N z)) as [b|] eqn:E.
  - apply Byte.to_of_N in E. rewrite E. lia.
  - apply Byte.of_N_None_iff in E. lia.
Qed.

Lemma byte_xor_involutive (a k : byte) : byte_xor (byte_xor a k) k = a.
Proof.
  unfold byte_xor.
  assert (Hr : 0 <= Z.lxor (Z_of_byte a) (Z_of_byte k) < 256).
  { pose proof (Z_of_byte_range a) as Ha. pose proof (Z_of_byte_range k) as Hk.
    split.
    - apply Z.lxor_nonneg. lia.
    - destruct (Z.eq_dec (Z.lxor (Z_of_byte a) (Z_of_byte k)) 0) as [->|Hne]; [lia|].
      change 256 with (2 ^ 8). apply Z.log2_lt_pow2.
      + assert (0 <= Z.lxor (Z_of_byte a) (Z_of_byte k)) by (apply Z.lxor_nonneg; lia). lia.
      + pose proof (Z.log2_lxor (Z_of_byte a) (Z_of_byte k) ltac:(lia) ltac:(lia)) as Hl.
        assert (Z.log2 (Z_of_byte a) < 8).
        { destruct (Z.eq_dec (Z_of_byte a) 0) as [->|]; [cbn; lia|].
          apply Z.log2_lt_pow2; lia. }
        assert (Z.log2 (Z_of_byte k) < 8).
        { destruct (Z.eq_dec (Z_of_byte k) 0) as [->|]; [cbn; lia|].
          apply Z.log2_lt_pow2; lia. }
        lia. }
  rewrite Z_of_byte_of_Z by exact Hr.
  rewrite Z.lxor_assoc, Z.lxor_nilpotent, Z.lxor_0_r.
  apply byte_of_Z_of_byte.
Qed.

Lemma bytes_eqb_eq (a b : bytes) : bytes_eqb a b = true <-> a = b.
Proof.
  revert b. induction a as [|x a IH]; intros [|y b]; cbn; try (split; congruence).
  rewrite andb_true_iff, IH. split.
  - intros [Hx ->]. apply Byte.byte_dec_bl in Hx. congruence.
  - intros [= -> ->]. split; [apply Byte.byte_dec_lb|]; reflexivity.
Qed.

Lemma bytes_eqb_refl (a : bytes) : bytes_eqb a a = true.
Proof. apply bytes_eqb_eq. reflexivity. Qed.

Lemma string_of_bytes_of_string (s : string) :
  string_of_bytes (bytes_of_string s) = s.
Proof. apply string_of_list_byte_of_string. Qed.

Lemma bytes_of_string_of_bytes (b : bytes) :
  bytes_of_string (string_of_bytes b) = b.
Proof. apply list_byte_of_string_of_list_byte. Qed.

(** ** encoding/base64 *)

Lemma bytes_ind3 (P : bytes -> Prop) :
  P [] -> (forall a, P [a]) -> (forall a b, P [a; b]) ->
  (forall a b c l, P l -> P (a :: b :: c :: l)) ->
  forall l, P l.
Proof.
  intros H0 H1 H2 H3 l.
  assert (G : forall n l, (length l <= n)%nat -> P l).
  { induction n as [|n IH]; intros [|a [|b [|c k]]] Hl; cbn in Hl; auto; try lia.
    apply H3, IH. lia. }
  apply (G (length l)). lia.
Qed.

Lemma sextet_range (x : Z) : 0 <= Z.land x 63 < 64.
Proof.
  change 63 with (Z.ones 6). rewrite Z.land_ones by lia.
  change (2 ^ 6) with 64. apply Z.mod_pos_bound. lia.
Qed.

Lemma In_sextets (i : Z) : 0 <= i < 64 -> In i (map Z.of_nat (seq 0 64)).
Proof.
  intros Hi. apply in_map_iff. exists (Z.to_nat i). split; [lia|].
  apply in_seq. lia.
Qed.

Section Alphabet.
Variable enc : Encoding.
Hypothesis Henc : alphabet_ok enc = true.

Lemma decodeMap_encode_at (i : Z) :
  0 <= i < 64 -> decodeMap enc (encode_at enc i) = i.
Proof.
  intros Hi. unfold alphabet_ok in Henc.
  apply andb_true_iff in Henc as [Hall _].
  rewrite forallb_forall in Hall. specialize (Hall i (In_sextets i Hi)).
  cbn zeta in Hall. apply andb_true_iff in Hall as [Hall _]. lia.
Qed.

Lemma encode_at_not_sep (i : Z) :
  0 <= i < 64 -> Ascii.eqb (encode_at enc i) "|"%char = false.
Proof.
  intros Hi. unfold alphabet_ok in Henc.
  apply andb_true_iff in Henc as [Hall _].
  rewrite forallb_forall in Hall. specialize (Hall i (In_sextets i Hi)).
  cbn zeta in Hall. apply andb_true_iff in Hall as [_ Hall].
  now apply negb_true_iff in Hall.
Qed.

(** Reading a character of the alphabet puts its position in the buffer. *)
Lemma decode_loop_symbol (j : nat) (dbuf : list Z) (i : Z) (rest : string) :
  0 <= i < 64 ->
  decode_loop enc j dbuf (String (encode_at enc i) rest) =
  if (j =? 3)%nat then
    tl <- decode_loop enc 0 [] rest ;; Ok (quantum_bytes 4 (dbuf ++ [i]) ++ tl)
  else decode_loop enc (S j) (dbuf ++ [i]) rest.
Proof.
  intros Hi. cbn [decode_loop]. rewrite decodeMap_encode_at by exact Hi.
  replace (i =? 255) with false by lia. reflexivity.
Qed.

(** The padding of a last group of one or two bytes is accepted. *)
Lemma decode_loop_pad2 (dbuf : list Z) :
  decode_loop enc 2 dbuf (pad_string enc 2) = Ok (quantum_bytes 2 dbuf).
Proof.
  unfold pad_string, alphabet_ok in *. apply andb_true_iff in Henc as [_ Hp].
  destruct (padChar enc) as [p|] eqn:Ep.
  - apply andb_true_iff in Hp as [Hp _]. apply andb_true_iff in Hp as [Hd Hn].
    apply negb_true_iff in Hn.
    cbn -[quantum_bytes]. rewrite Hd. cbn -[quantum_bytes].
    unfold is_pad. rewrite Ep, !Hn, !Ascii.eqb_refl. reflexivity.
  - cbn -[quantum_bytes]. rewrite Ep. reflexivity.
Qed.

Lemma decode_loop_pad1 (dbuf : list Z) :
  decode_loop enc 3 dbuf (pad_string enc 1) = Ok (quantum_bytes 3 dbuf).
Proof.
  unfold pad_string, alphabet_ok in *. apply andb_true_iff in Henc as [_ Hp].
  destruct (padChar enc) as [p|] eqn:Ep.
  - apply andb_true_iff in Hp as [Hp _]. apply andb_true_iff in Hp as [Hd Hn].
    apply negb_true_iff in Hn.
    cbn -[quantum_bytes]. rewrite Hd. cbn -[quantum_bytes].
    unfold is_pad. rewrite Ep, !Hn, !Ascii.eqb_refl. reflexivity.
  - cbn -[quantum_bytes]. rewrite Ep. reflexivity.
Qed.

Lemma pad_string_no_sep (n : nat) : no_char "|"%char (pad_string enc n) = true.
Proof.
  unfold pad_string, alphabet_ok in *. apply andb_true_iff in Henc as [_ Hp].
  destruct (padChar enc) as [p|]; [|reflexivity].
  apply andb_true_iff in Hp as [_ Hp].
  induction n as [|n IH]; cbn; [reflexivity|]. now rewrite Hp, IH.
Qed.

End Alphabet.

(** The bit arithmetic of one quantum: packing the six-bit values of a
    24-bit number gives the number back, as far as the values reach. *)
Lemma recombine24 (v : Z) :
  Z.lor (Z.lor (Z.lor (Z.shiftl (Z.land (Z.shiftr v 18) 63) 18)
                      (Z.shiftl (Z.land (Z.shiftr v 12) 63) 12))
               (Z.shiftl (Z.land (Z.shiftr v 6) 63) 6)) (Z.land v 63)
  = Z.land v (Z.ones 24).
Proof. change 63 with (Z.ones 6). Z.bitblast. Qed.

Lemma recombine18 (v : Z) :
  Z.lor (Z.lor (Z.lor (Z.shiftl (Z.land (Z.shiftr v 18) 63) 18)
                      (Z.shiftl (Z.land (Z.shiftr v 12) 63) 12))
               (Z.shiftl (Z.land (Z.shiftr v 6) 63) 6)) 0
  = Z.land v (Z.shiftl (Z.ones 18) 6).
Proof. change 63 with (Z.ones 6). Z.bitblast. Qed.

Lemma recombine12 (v : Z) :
  Z.lor (Z.lor (Z.lor (Z.shiftl (Z.land (Z.shiftr v 18) 63) 18)
                      (Z.shiftl (Z.land (Z.shiftr v 12) 63) 12))
               (Z.shiftl 0 6)) 0
  = Z.land v (Z.shiftl (Z.ones 12) 12).
Proof. change 63 with (Z.ones 6). Z.bitblast. Qed.

Lemma pack3_hi (a b c : Z) :
  Z.land (Z.shiftr (Z.land (pack3 a b c) (Z.ones 24)) 16) (Z.ones 8)
  = Z.land a (Z.ones 8).
Proof. unfold pack3. Z.bitblast. Qed.

Lemma pack3_mid (a b c : Z) :
  Z.land (Z.shiftr (Z.land (pack3 a b c) (Z.ones 24)) 8) (Z.ones 8)
  = Z.land b (Z.ones 8).
Proof. unfold pack3. Z.bitblast. Qed.

Lemma pack3_lo (a b c : Z) :
  Z.land (Z.land (pack3 a b c) (Z.ones 24)) (Z.ones 8) = Z.land c (Z.ones 8).
Proof. unfold pack3. Z.bitblast. Qed.

Lemma pack2_hi (a b : Z) :
  Z.land (Z.shiftr (Z.land (Z.lor (Z.shiftl (Z.land a (Z.ones 8)) 16)
                                  (Z.shiftl (Z.land b (Z.ones 8)) 8))
                           (Z.shiftl (Z.ones 18) 6)) 16) (Z.ones 8)
  = Z.land a (Z.ones 8).
Proof. Z.bitblast. Qed.

Lemma pack2_mid (a b : Z) :
  Z.land (Z.shiftr (Z.land (Z.lor (Z.shiftl (Z.land a (Z.ones 8)) 16)
                                  (Z.shiftl (Z.land b (Z.ones 8)) 8))
                           (Z.shiftl (Z.ones 18) 6)) 8) (Z.ones 8)
  = Z.land b (Z.ones 8).
Proof. Z.bitblast. Qed.

Lemma pack1_hi (a : Z) :
  Z.land (Z.shiftr (Z.land (Z.shiftl (Z.land a (Z.ones 8)) 16)
                           (Z.shiftl (Z.ones 12) 12)) 16) (Z.ones 8)
  = Z.land a (Z.ones 8).
Proof. Z.bitblast. Qed.

Lemma byte_of_land (z : Z) (x : byte) :
  Z.land z (Z.ones 8) = Z.land (Z_of_byte x) (Z.ones 8) -> byte_of_Z z = x.
Proof.
  intros H. rewrite <- byte_of_Z_land. change 255 with (Z.ones 8).
  rewrite H. change (Z.ones 8) with 255.
  rewrite byte_of_Z_land. apply byte_of_Z_of_byte.
Qed.

Lemma quantum_bytes3 (x y z : byte) :
  let val := Z.lor (Z.lor (Z.shiftl (Z_of_byte x) 16)
                          (Z.shiftl (Z_of_byte y) 8)) (Z_of_byte z) in
  quantum_bytes 4 [Z.land (Z.shiftr val 18) 63; Z.land (Z.shiftr val 12) 63;
                   Z.land (Z.shiftr val 6) 63; Z.land val 63] = [x; y; z].
Proof.
  cbv zeta. unfold quantum_bytes. cbn [nth Nat.sub firstn].
  rewrite recombine24.
  rewrite <- (Z_of_byte_land x), <- (Z_of_byte_land y), <- (Z_of_byte_land z).
  change 255 with (Z.ones 8).
  fold (pack3 (Z_of_byte x) (Z_of_byte y) (Z_of_byte z)).
  f_equal; [|f_equal; [|f_equal]]; apply byte_of_land.
  - apply pack3_hi.
  - apply pack3_mid.
  - apply pack3_lo.
Qed.

Lemma quantum_bytes2 (x y : byte) :
  let val := Z.lor (Z.shiftl (Z_of_byte x) 16) (Z.shiftl (Z_of_byte y) 8) in
  quantum_bytes 3 [Z.land (Z.shiftr val 18) 63; Z.land (Z.shiftr val 12) 63;
                   Z.land (Z.shiftr val 6) 63] = [x; y].
Proof.
  cbv zeta. unfold quantum_bytes. cbn [nth Nat.sub firstn].
  rewrite recombine18.
  rewrite <- (Z_of_byte_land x), <- (Z_of_byte_land y).
  change 255 with (Z.ones 8).
  f_equal; [|f_equal]; apply byte_of_land.
  - apply pack2_hi.
  - apply pack2_mid.
Qed.

Lemma quantum_bytes1 (x : byte) :
  let val := Z.shiftl (Z_of_byte x) 16 in
  quantum_bytes 2 [Z.land (Z.shiftr val 18) 63; Z.land (Z.shiftr val 12) 63]
  = [x].
Proof.
  cbv zeta. unfold quantum_bytes. cbn [nth Nat.sub firstn].
  change (Z.shiftl 0 12) with 0 || idtac.
  rewrite recombine12.
  rewrite <- (Z_of_byte_land x). change 255 with (Z.ones 8).
  f_equal. apply byte_of_land, pack1_hi.
Qed.

(** Decoding inverts encoding, for every encoding with a proper alphabet. *)
Lemma DecodeString_EncodeToString (enc : Encoding) (src : bytes) :
  alphabet_ok enc = true ->
  DecodeString enc (EncodeToString enc src) = Ok src.
Proof.
  intros Henc. unfold DecodeString.
  induction src as [|x|x y|x y z l IH] using bytes_ind3.
  - reflexivity.
  - cbn [EncodeToString].
    rewrite !(decode_loop_symbol enc Henc) by apply sextet_range.
    cbn [Nat.eqb app]. rewrite (decode_loop_pad2 enc Henc).
    f_equal. apply quantum_bytes1.
  - cbn [EncodeToString].
    rewrite !(decode_loop_symbol enc Henc) by apply sextet_range.
    cbn [Nat.eqb app]. rewrite (decode_loop_pad1 enc Henc).
    f_equal. apply quantum_bytes2.
  - cbn [EncodeToString].
    rewrite !(decode_loop_symbol enc Henc) by apply sextet_range.
    cbn [Nat.eqb app]. rewrite IH. cbn [bindR].
    f_equal. rewrite (quantum_bytes3 x y z). reflexivity.
Qed.

Lemma EncodeToString_no_sep (enc : Encoding) (src : bytes) :
  alphabet_ok enc = true ->
  no_char "|"%char (EncodeToString enc src) = true.
Proof.
  intros Henc.
  induction src as [|x|x y|x y z l IH] using bytes_ind3;
    cbn [EncodeToString no_char];
    rewrite ?(encode_at_not_sep enc Henc) by apply sextet_range;
    rewrite ?(pad_string_no_sep enc Henc), ?IH; reflexivity.
Qed.

Lemma StdEncoding_ok : alphabet_ok StdEncoding = true.
Proof. vm_compute. reflexivity. Qed.

Lemma URLEncoding_ok : alphabet_ok URLEncoding = true.
Proof. vm_compute. reflexivity. Qed.

Lemma RawURLEncoding_ok : alphabet_ok RawURLEncoding = true.
Proof. vm_compute. reflexivity. Qed.

(** ** strconv and strings *)

Lemma digit_val_digit_char (d : Z) :
  0 <= d < 10 -> digit_val (digit_char d) = Some d.
Proof.
  intros Hd.
  assert (E : d = 0 \/ d = 1 \/ d = 2 \/ d = 3 \/ d = 4 \/ d = 5 \/ d = 6
              \/ d = 7 \/ d = 8 \/ d = 9) by lia.
  repeat (destruct E as [-> | E]; [reflexivity|]). subst. reflexivity.
Qed.

Lemma digit_char_plain (d : Z) :
  0 <= d < 10 ->
  Ascii.eqb (digit_char d) "|"%char = false /\
  Ascii.eqb (digit_char d) "-"%char = false /\
  Ascii.eqb (digit_char d) "+"%char = false.
Proof.
  intros Hd.
  assert (E : d = 0 \/ d = 1 \/ d = 2 \/ d = 3 \/ d = 4 \/ d = 5 \/ d = 6
              \/ d = 7 \/ d = 8 \/ d = 9) by lia.
  repeat (destruct E as [-> | E]; [repeat split; reflexivity|]).
  subst. repeat split; reflexivity.
Qed.

(** Parsing the digits written before [acc] continues with their value. *)
Lemma parse_format_digits (fuel : nat) :
  forall n acc, 0 <= n < 10 ^ Z.of_nat fuel ->
    parse_digits (format_digits fuel n acc) 0 = parse_digits acc n.
Proof.
  induction fuel as [|fuel IH]; intros n acc Hn.
  - cbn in *. replace n with 0 by lia. reflexivity.
  - cbn [format_digits]. destruct (n <? 10) eqn:E.
    + apply Z.ltb_lt in E. cbn [parse_digits].
      rewrite Z.mod_small by lia. rewrite digit_val_digit_char by lia.
      reflexivity.
    + apply Z.ltb_ge in E. rewrite IH.
      * cbn [parse_digits].
        rewrite digit_val_digit_char by (apply Z.mod_pos_bound; lia).
        f_equal. pose proof (Z.div_mod n 10 ltac:(lia)). lia.
      * rewrite Nat2Z.inj_succ, Z.pow_succ_r in Hn by lia.
        split; [apply Z.div_pos; lia|].
        apply Z.div_lt_upper_bound; lia.
Qed.

Lemma format_digits_head (fuel : nat) :
  forall n acc, 0 <= n ->
    exists d r, 0 <= d < 10 /\
      format_digits (S fuel) n acc = String (digit_char d) r.
Proof.
  induction fuel as [|fuel IH]; intros n acc Hn; cbn [format_digits].
  - exists (n mod 10), acc. split; [apply Z.mod_pos_bound; lia|].
    destruct (n <? 10); reflexivity.
  - destruct (n <? 10) eqn:E.
    + exists (n mod 10), acc. split; [apply Z.mod_pos_bound; lia|reflexivity].
    + apply (IH (n / 10)). apply Z.div_pos; lia.
Qed.

Lemma format_digits_no_sep (fuel : nat) :
  forall n acc, 0 <= n -> no_char "|"%char acc = true ->
    no_char "|"%char (format_digits fuel n acc) = true.
Proof.
  induction fuel as [|fuel IH]; intros n acc Hn Hacc; cbn [format_digits].
  - exact Hacc.
  - assert (Hd : no_char "|"%char (String (digit_char (n mod 10)) acc) = true).
    { cbn [no_char].
      destruct (digit_char_plain (n mod 10)) as [-> _];
        [apply Z.mod_pos_bound; lia|]. exact Hacc. }
    destruct (n <? 10); [exact Hd|].
    apply IH; [apply Z.div_pos; lia|exact Hd].
Qed.

Lemma fuel_enough (n : Z) :
  0 <= n -> n < 10 ^ Z.of_nat (S (Z.to_nat (Z.log2 n))).
Proof.
  intros Hn. rewrite Nat2Z.inj_succ, Z2Nat.id by apply Z.log2_nonneg.
  destruct (Z.eq_dec n 0) as [->|Hne]; [cbn; lia|].
  pose proof (Z.log2_spec n ltac:(lia)) as [_ Hlt].
  eapply Z.lt_le_trans; [exact Hlt|].
  apply Z.pow_le_mono_l. lia.
Qed.

(** [Atoi] reads back what [Sprintf("%d")] writes, for every int64. *)
Lemma Atoi_Sprintf_d (n : Z) :
  - 2 ^ 63 <= n < 2 ^ 63 -> strconv_Atoi (Sprintf_d n) = Ok n.
Proof.
  intros Hn. unfold Sprintf_d. destruct (n <? 0) eqn:E.
  - apply Z.ltb_lt in E. unfold strconv_Atoi.
    rewrite Ascii.eqb_refl. cbn [orb].
    destruct (format_digits_head (Z.to_nat (Z.log2 (- n))) (- n) EmptyString)
      as (d & r & Hd & Hf); [lia|].
    assert (Hm : 0 <= - n) by lia.
    pose proof (parse_format_digits _ (- n) EmptyString
                  (conj Hm (fuel_enough (- n) Hm))) as Hp.
    rewrite Hf in Hp |- *. rewrite Hp. cbn [parse_digits].
    rewrite Z.opp_involutive.
    replace ((- 2 ^ 63 <=? n) && (n <? 2 ^ 63)) with true by lia.
    reflexivity.
  - apply Z.ltb_ge in E. unfold strconv_Atoi.
    destruct (format_digits_head (Z.to_nat (Z.log2 n)) n EmptyString E)
      as (d & r & Hd & Hf).
    pose proof (parse_format_digits _ n EmptyString
                  (conj E (fuel_enough n E))) as Hp.
    rewrite Hf in Hp |- *.
    destruct (digit_char_plain d Hd) as (_ & -> & ->). cbn [orb].
    rewrite Hp. cbn [parse_digits].
    replace ((- 2 ^ 63 <=? n) && (n <? 2 ^ 63)) with true by lia.
    reflexivity.
Qed.

Lemma Sprintf_d_no_sep (n : Z) : no_char "|"%char (Sprintf_d n) = true.
Proof.
  unfold Sprintf_d. destruct (n <? 0) eqn:E.
  - apply Z.ltb_lt in E. cbn [no_char]. cbn [Ascii.eqb Bool.eqb negb andb].
    apply format_digits_no_sep; [lia|reflexivity].
  - apply Z.ltb_ge in E. apply format_digits_no_sep; [lia|reflexivity].
Qed.

Lemma Split_no_sep (sep : ascii) (s : string) :
  no_char sep s = true -> strings_Split s sep = [s].
Proof.
  induction s as [|c s IH]; cbn; [reflexivity|].
  intros H. apply andb_true_iff in H as [Hc Hs].
  apply negb_true_iff in Hc. rewrite Hc, (IH Hs). reflexivity.
Qed.

Lemma Split_app (sep : ascii) (a b : string) :
  no_char sep a = true ->
  strings_Split (a ++ String sep b) sep = a :: strings_Split b sep.
Proof.
  induction a as [|c a IH]; cbn.
  - intros _. rewrite Ascii.eqb_refl. reflexivity.
  - intros H. apply andb_true_iff in H as [Hc Ha].
    apply negb_true_iff in Hc. rewrite Hc, (IH Ha). reflexivity.
Qed.

(** A string is split into at least one piece. *)
Lemma Split_nonempty (sep : ascii) (s : string) : strings_Split s sep <> [].
Proof.
  destruct s as [|c s]; cbn; [discriminate|].
  destruct (Ascii.eqb c sep); [discriminate|].
  destruct (strings_Split s sep); discriminate.
Qed.

(** ** Signatures *)

Lemma hmac_Write_fold (rest : list string) :
  forall h,
    fold_left (fun h arg => hmac_Write h (bytes_of_string arg)) rest h =
    hmac_Write h (concat (map bytes_of_string rest)).
Proof.
  induction rest as [|a rest IH]; intros h; cbn [fold_left map concat].
  - destruct h. unfold hmac_Write. cbn. now rewrite app_nil_r.
  - rewrite IH. unfold hmac_Write. cbn. now rewrite app_assoc.
Qed.

(** The signature is the base64url text of the HMAC, keyed by the first
    argument, of the other arguments one after the other. *)
Lemma cookieSignature_HMAC (signer : Hash) (key : string) (rest : list string) :
  cookieSignature signer (key :: rest) =
  Ok (EncodeToString URLEncoding
        (HMAC signer (bytes_of_string key) (concat (map bytes_of_string rest)))).
Proof.
  unfold cookieSignature, HMAC. now rewrite hmac_Write_fold.
Qed.

Lemma checkHmac_encoded (input : string) (mac : bytes) :
  checkHmac input (EncodeToString URLEncoding mac) = true <->
  DecodeString URLEncoding input = Ok mac.
Proof.
  unfold checkHmac.
  rewrite (DecodeString_EncodeToString URLEncoding mac URLEncoding_ok).
  destruct (DecodeString URLEncoding input) as [m| |]; unfold hmac_Equal.
  - rewrite bytes_eqb_eq. split; congruence.
  - split; discriminate.
  - split; discriminate.
Qed.

(** With a key, [checkSignature] returns: the SHA-256 check, or else the
    SHA-1 check. *)
Lemma checkSignature_key (signature key : string) (rest : list string) :
  checkSignature signature (key :: rest) =
  Ok (checkHmac signature
        (EncodeToString URLEncoding
           (HMAC sha256_New (bytes_of_string key)
                 (concat (map bytes_of_string rest))))
      || checkHmac signature
           (EncodeToString URLEncoding
              (HMAC sha1_New (bytes_of_string key)
                    (concat (map bytes_of_string rest))))).
Proof.
  unfold checkSignature. rewrite !cookieSignature_HMAC. cbn [bindR].
  destruct (checkHmac signature _); reflexivity.
Qed.

Lemma checkHmac_own (mac : bytes) :
  checkHmac (EncodeToString URLEncoding mac) (EncodeToString URLEncoding mac)
  = true.
Proof.
  apply checkHmac_encoded, DecodeString_EncodeToString, URLEncoding_ok.
Qed.

Lemma Duration_mul_neg (d : Duration) :
  - 2 ^ 63 < d < 2 ^ 63 -> Duration_mul d (-1) = - d.
Proof.
  intros Hd. unfold Duration_mul, wrap64.
  rewrite Z.mod_small by lia. lia.
Qed.

Lemma five_minutes : Duration_mul time_Minute 5 = 300 * time_Second.
Proof. reflexivity. Qed.

(** What [Validate] computes once the cookie has three fields, a verified
    signature and a timestamp that parses: the timestamp is compared with
    the first reading of the clock less the expiration, then with the
    second reading plus five minutes. *)
Lemma Validate_signed (name value seed p0 p1 p2 : string) (T : Z)
    (expiration : Duration) (clk : Clock) :
  strings_Split value "|"%char = [p0; p1; p2] ->
  checkSignature p2 [seed; name; p0; p1] = Ok true ->
  strconv_Atoi p1 = Ok T ->
  - 2 ^ 63 < expiration < 2 ^ 63 ->
  Validate (Some (mkCookie name value)) seed expiration clk =
  if (clk 0%nat - expiration <? T * time_Second)
     && (T * time_Second <? clk 1%nat + 300 * time_Second)
  then match DecodeString URLEncoding p0 with
       | Ok raw => Ok (Some raw, time_Unix T 0, true)
       | _ => Ok (None, time_Unix T 0, false)
       end
  else Ok (None, time_Unix T 0, false).
Proof.
  intros Hsplit Hsig Hts Hexp. unfold Validate. cbn [Value Name].
  rewrite Hsplit, Hsig. cbn [bindR]. rewrite Hts.
  unfold time_Now. cbn [fst].
  rewrite Duration_mul_neg by exact Hexp. rewrite five_minutes.
  unfold Time_After, Time_Before, Time_Add, time_Unix.
  rewrite Z.add_0_r.
  replace (clk 0%nat + - expiration) with (clk 0%nat - expiration) by lia.
  reflexivity.
Qed.

Lemma ex_cookie_signed :
  SignedValue ex_seed ex_name ex_value (time_Unix ex_T 0) = Ok ex_cookie.
Proof. vm_compute. reflexivity. Qed.

Lemma ex_cookie_fields :
  strings_Split ex_cookie "|"%char = [ex_p0; ex_p1; ex_p2] /\
  checkSignature ex_p2 [ex_seed; ex_name; ex_p0; ex_p1] = Ok true /\
  strconv_Atoi ex_p1 = Ok ex_T.
Proof. vm_compute. repeat split; reflexivity. Qed.

(** ** The claims on the envelope *)

(** C8.  Signature verification accepts a candidate signature exactly when
    it is base64url text of the HMAC-SHA256 of the message under the seed
    or of the HMAC-SHA1 of the same key and message; the check never
    panics when a key is given.  [checkSignature] tries SHA-256 before
    SHA-1 (its definition), and a candidate that decodes to neither MAC is
    rejected. *)
Theorem checkSignature_accepts_iff_sha256_or_sha1
    (signature key : string) (rest : list string) :
  exists ok,
    checkSignature signature (key :: rest) = Ok ok /\
    (ok = true <->
     exists mac,
       DecodeString URLEncoding signature = Ok mac /\
       (mac = HMAC sha256_New (bytes_of_string key)
                   (concat (map bytes_of_string rest)) \/
        mac = HMAC sha1_New (bytes_of_string key)
                   (concat (map bytes_of_string rest)))).
Proof.
  rewrite checkSignature_key.
  set (m256 := HMAC sha256_New _ _). set (m1 := HMAC sha1_New _ _).
  eexists. split; [reflexivity|]. rewrite orb_true_iff, !checkHmac_encoded.
  split.
  - intros [H256 | H1]; eauto.
  - intros (mac & Hdec & [-> | ->]); auto.
Qed.

(** A signature made with the legacy hash verifies. *)
Lemma legacy_signature_accepted (key : string) (rest : list string) :
  sig <- cookieSignature sha1_New (key :: rest) ;;
  checkSignature sig (key :: rest) = Ok true.
Proof.
  rewrite cookieSignature_HMAC. cbn [bindR].
  rewrite checkSignature_key, checkHmac_own, orb_true_r. reflexivity.
Qed.

(** C1 (amended).  For a cookie of three fields whose signature verifies
    and whose timestamp field parses as the integer T, and an expiration
    other than the least int64, [Validate] accepts if and only if T, as an
    instant, lies strictly between now - expiration and now + 5 minutes and
    the value field is base64url text: both bounds are open. *)
Theorem Validate_accepts_iff_in_open_window
    (name value seed p0 p1 p2 : string) (T : Z)
    (expiration : Duration) (now : Time) :
  strings_Split value "|"%char = [p0; p1; p2] ->
  checkSignature p2 [seed; name; p0; p1] = Ok true ->
  strconv_Atoi p1 = Ok T ->
  - 2 ^ 63 < expiration < 2 ^ 63 ->
  exists v t ok,
    Validate (Some (mkCookie name value)) seed expiration (clock_at now)
      = Ok (v, t, ok) /\
    (ok = true <->
     (now - expiration < T * time_Second < now + 5 * time_Minute /\
      exists raw, DecodeString URLEncoding p0 = Ok raw)).
Proof.
  intros Hsplit Hsig Hts Hexp.
  rewrite (Validate_signed _ _ _ _ _ _ _ _ _ Hsplit Hsig Hts Hexp).
  unfold clock_at. change (5 * time_Minute) with (300 * time_Second).
  destruct (now - expiration <? T * time_Second) eqn:Elo;
    [apply Z.ltb_lt in Elo | apply Z.ltb_ge in Elo];
    (destruct (T * time_Second <? now + 300 * time_Second) eqn:Ehi;
     [apply Z.ltb_lt in Ehi | apply Z.ltb_ge in Ehi]); cbn [andb].
  1: destruct (DecodeString URLEncoding p0) as [raw|e|p] eqn:Edec.
  1: { exists (Some raw), (time_Unix T 0), true. split; [reflexivity|].
       split; [intros _|reflexivity]. split; [lia|]. exists raw. reflexivity. }
  all: exists None, (time_Unix T 0), false; split; [reflexivity|];
       split; [discriminate|]; intros [Hw [raw Hraw]];
       first [discriminate Hraw | lia].
Qed.

(** The cookie issued at 1600000000 is accepted one minute later. *)
Lemma Validate_accepts_iff_in_open_window_witness :
  exists v t ok,
    Validate (Some (mkCookie ex_name ex_cookie)) ex_seed one_hour
             (clock_at (time_Unix (ex_T + 60) 0)) = Ok (v, t, ok) /\
    (ok = true <->
     (time_Unix (ex_T + 60) 0 - one_hour < ex_T * time_Second
        < time_Unix (ex_T + 60) 0 + 5 * time_Minute /\
      exists raw, DecodeString URLEncoding ex_p0 = Ok raw)).
Proof.
  apply (Validate_accepts_iff_in_open_window
           ex_name ex_cookie ex_seed ex_p0 ex_p1 ex_p2 ex_T).
  - vm_compute. reflexivity.
  - vm_compute. reflexivity.
  - vm_compute. reflexivity.
  - vm_compute. split; reflexivity.
Defined.

(** C1, as stated, fails.  The cookie issued at T = 1600000000 has a
    verified signature and a timestamp that parses.  Five minutes before T
    the timestamp lies in (now - expiration, now + 5 minutes], at its closed
    end, and the cookie is rejected; it is also rejected at
    now = T + expiration. *)
Lemma Validate_window_upper_bound_not_closed :
  strings_Split ex_cookie "|"%char = [ex_p0; ex_p1; ex_p2] /\
  checkSignature ex_p2 [ex_seed; ex_name; ex_p0; ex_p1] = Ok true /\
  strconv_Atoi ex_p1 = Ok ex_T /\
  (time_Unix (ex_T - 300) 0 - one_hour < time_Unix ex_T 0
     <= time_Unix (ex_T - 300) 0 + 5 * time_Minute) /\
  Validate (Some (mkCookie ex_name ex_cookie)) ex_seed one_hour
           (clock_at (time_Unix (ex_T - 300) 0))
    = Ok (None, time_Unix ex_T 0, false) /\
  Validate (Some (mkCookie ex_name ex_cookie)) ex_seed one_hour
           (clock_at (Time_Add (time_Unix ex_T 0) one_hour))
    = Ok (None, time_Unix ex_T 0, false).
Proof.
  vm_compute. repeat split; try reflexivity; discriminate.
Qed.

(** C4 (amended).  For every cookie, [Validate] returns (it does not
    panic), and every check that fails gives ok = false with a nil value.
    If the cookie has not three fields, the signature does not verify or
    the timestamp does not parse, ok is false and the time is the zero
    time.  Otherwise, with T the timestamp, the time is the instant of T,
    and ok is true exactly when T is after the first reading of the clock
    less the expiration, before the second reading plus five minutes, and
    the value field is base64url text; so a cookie that fails on the window
    or on the decoding of its value is returned with ok = false, a nil
    value and the instant of its own timestamp as the time. *)
Theorem Validate_failure_outputs
    (cookie : Cookie) (seed : string) (expiration : Duration) (clk : Clock) :
  exists v t ok,
    Validate (Some cookie) seed expiration clk = Ok (v, t, ok) /\
    (ok = false -> v = None) /\
    match strings_Split (Value cookie) "|"%char with
    | [p0; p1; p2] =>
        match checkSignature p2 [seed; Name cookie; p0; p1],
              strconv_Atoi p1 with
        | Ok true, Ok ts =>
            t = time_Unix ts 0 /\
            (ok = true <->
             (Time_After (time_Unix ts 0)
                (Time_Add (clk 0%nat) (Duration_mul expiration (-1))) = true /\
              Time_Before (time_Unix ts 0)
                (Time_Add (clk 1%nat) (5 * time_Minute)) = true /\
              exists raw, DecodeString URLEncoding p0 = Ok raw))
        | _, _ => ok = false /\ t = zeroTime
        end
    | _ => ok = false /\ t = zeroTime
    end.
Proof.
  unfold Validate.
  destruct (strings_Split (Value cookie) "|"%char) as [|p0 [|p1 [|p2 [|p3 l]]]];
    try (exists None, zeroTime, false; split; [reflexivity|auto]).
  rewrite checkSignature_key. cbn [bindR].
  destruct (checkHmac p2 _ || checkHmac p2 _).
  2: { exists None, zeroTime, false. split; [reflexivity|auto]. }
  destruct (strconv_Atoi p1) as [ts|e|p];
    try (exists None, zeroTime, false; split; [reflexivity|auto]).
  unfold time_Now. cbn [fst]. rewrite five_minutes.
  change (5 * time_Minute) with (300 * time_Second).
  destruct (Time_After (time_Unix ts 0)
              (Time_Add (clk 0%nat) (Duration_mul expiration (-1)))) eqn:Ea;
    cbn [andb].
  2: { exists None, (time_Unix ts 0), false. split; [reflexivity|].
       split; [auto|]. split; [reflexivity|].
       split; [discriminate|]. intros (H & _). discriminate H. }
  destruct (Time_Before (time_Unix ts 0)
              (Time_Add (clk 1%nat) (300 * time_Second))) eqn:Eb.
  2: { exists None, (time_Unix ts 0), false. split; [reflexivity|].
       split; [auto|]. split; [reflexivity|].
       split; [discriminate|]. intros (_ & H & _). discriminate H. }
  destruct (DecodeString URLEncoding p0) as [raw|e|p] eqn:Ed.
  - exists (Some raw), (time_Unix ts 0), true. split; [reflexivity|].
    split; [discriminate|]. split; [reflexivity|].
    split; [intros _|reflexivity]. repeat split. exists raw. reflexivity.
  - exists None, (time_Unix ts 0), false. split; [reflexivity|].
    split; [auto|]. split; [reflexivity|].
    split; [discriminate|]. intros (_ & _ & raw & H). discriminate H.
  - exists None, (time_Unix ts 0), false. split; [reflexivity|].
    split; [auto|]. split; [reflexivity|].
    split; [discriminate|]. intros (_ & _ & raw & H). discriminate H.
Qed.

(** C4, as stated, fails: a cookie that has expired is rejected with its
    own timestamp as the time, not the zero time. *)
Lemma Validate_failure_keeps_timestamp :
  Validate (Some (mkCookie ex_name ex_cookie)) ex_seed one_hour
           (clock_at (time_Unix (ex_T + 7200) 0))
    = Ok (None, time_Unix ex_T 0, false) /\
  time_Unix ex_T 0 <> zeroTime.
Proof.
  split; [vm_compute; reflexivity | vm_compute; discriminate].
Qed.

(** C5 (amended).  For every value v, name, seed and instant now whose
    Unix seconds fit an int64, and every expiration that is longer than the
    part of now below the second, validating at now the envelope signed at
    now with the same seed and name returns v, the instant of the whole
    second of now, and ok = true. *)
Theorem SignedValue_Validate_roundtrip
    (seed name : string) (v : bytes) (now : Time) (expiration : Duration) :
  - 2 ^ 63 <= Time_Unix now < 2 ^ 63 ->
  now mod time_Second < expiration < 2 ^ 63 ->
  exists envelope,
    SignedValue seed name v now = Ok envelope /\
    Validate (Some (mkCookie name envelope)) seed expiration (clock_at now)
      = Ok (Some v, time_Unix (Time_Unix now) 0, true).
Proof.
  intros Hnow Hexp.
  assert (Hfrac : 0 <= now mod time_Second < time_Second)
    by (apply Z.mod_pos_bound; reflexivity).
  unfold SignedValue. rewrite cookieSignature_HMAC. cbn [bindR].
  set (p0 := EncodeToString URLEncoding v).
  set (p1 := Sprintf_d (Time_Unix now)).
  set (mac := HMAC sha256_New _ _).
  set (p2 := EncodeToString URLEncoding mac).
  eexists. split; [reflexivity|].
  assert (Hsplit : strings_Split (p0 ++ "|" ++ p1 ++ "|" ++ p2)%string "|"%char
                   = [p0; p1; p2]).
  { change ("|" ++ p1 ++ "|" ++ p2)%string
      with (String "|"%char (p1 ++ String "|"%char p2)).
    rewrite Split_app by (apply EncodeToString_no_sep, URLEncoding_ok).
    rewrite Split_app by apply Sprintf_d_no_sep.
    rewrite Split_no_sep by (apply EncodeToString_no_sep, URLEncoding_ok).
    reflexivity. }
  assert (Hsig : checkSignature p2 [seed; name; p0; p1] = Ok true).
  { rewrite checkSignature_key. fold mac. fold p2.
    unfold p2 at 1 2. now rewrite checkHmac_own. }
  rewrite (Validate_signed name _ seed p0 p1 p2 (Time_Unix now)
             expiration (clock_at now) Hsplit Hsig (Atoi_Sprintf_d _ Hnow))
    by lia.
  unfold clock_at, p0. rewrite (DecodeString_EncodeToString _ v URLEncoding_ok).
  assert (Hdm : now = time_Second * Time_Unix now + now mod time_Second)
    by (apply Z.div_mod; discriminate).
  replace (now - expiration <? Time_Unix now * time_Second) with true by lia.
  replace (Time_Unix now * time_Second <? now + 300 * time_Second)
    with true by lia.
  reflexivity.
Qed.

(** The envelope of the example, under an expiration of one hour. *)
Lemma SignedValue_Validate_roundtrip_witness :
  exists envelope,
    SignedValue ex_seed ex_name ex_value (time_Unix ex_T 0) = Ok envelope /\
    Validate (Some (mkCookie ex_name envelope)) ex_seed one_hour
             (clock_at (time_Unix ex_T 0))
      = Ok (Some ex_value, time_Unix (Time_Unix (time_Unix ex_T 0)) 0, true).
Proof.
  apply (SignedValue_Validate_roundtrip ex_seed ex_name ex_value
           (time_Unix ex_T 0) one_hour).
  - vm_compute. split; [discriminate|reflexivity].
  - vm_compute. split; reflexivity.
Defined.

(** C5, as stated, fails.  With expiration = 0 the condition
    0 <= now - now <= expiration holds, and the envelope signed at now is
    rejected at now.  And half a second after a whole second, under an
    expiration of one hour, the time returned is the whole second, not
    now. *)
Lemma SignedValue_Validate_zero_expiration :
  SignedValue ex_seed ex_name ex_value (time_Unix ex_T 0) = Ok ex_cookie /\
  0 <= time_Unix ex_T 0 - time_Unix ex_T 0 <= 0 /\
  Validate (Some (mkCookie ex_name ex_cookie)) ex_seed 0
           (clock_at (time_Unix ex_T 0))
    = Ok (None, time_Unix ex_T 0, false) /\
  SignedValue ex_seed ex_name ex_value (time_Unix ex_T 500000000)
    = Ok ex_cookie /\
  Validate (Some (mkCookie ex_name ex_cookie)) ex_seed one_hour
           (clock_at (time_Unix ex_T 500000000))
    = Ok (Some ex_value, time_Unix ex_T 0, true) /\
  time_Unix ex_T 0 <> time_Unix ex_T 500000000.
Proof.
  vm_compute. repeat split; try reflexivity; discriminate.
Qed.

(** ** SecretBytes *)

(** Trimming removes a run of trailing padding characters and nothing
    else. *)
Lemma TrimRight_padding (s : string) :
  exists n, s = (strings_TrimRight s "=" ++
                 string_of_list_ascii (repeat "="%char n))%string.
Proof.
  induction s as [|c s [n IH]]; [exists O; reflexivity|].
  cbn [strings_TrimRight].
  destruct (strings_TrimRight s "=") as [|c' t] eqn:E.
  - cbn [in_cutset]. destruct (Ascii.eqb_spec "="%char c) as [<-|Hc]; cbn [orb].
    + exists (S n). cbn. now rewrite IH at 1.
    + exists n. cbn. now rewrite IH at 1.
  - exists n. cbn. now rewrite IH at 1.
Qed.

(** C7.  [SecretBytes] is a total function of the secret.  When the
    secret without its trailing '=' decodes as unpadded base64url to 16, 24
    or 32 bytes, the result is the decoded bytes; when it decodes to another
    number of bytes, or does not decode, the result is the bytes of the
    secret itself.  A secret of 22 characters that decodes to 16 bytes gives
    these 16 bytes, and one that decodes to 17 bytes gives its own 23
    bytes. *)
Theorem SecretBytes_decoded_key_or_raw (secret : string) :
  let trimmed := strings_TrimRight secret "=" in
  (forall b, DecodeString RawURLEncoding trimmed = Ok b ->
             (length b = 16 \/ length b = 24 \/ length b = 32)%nat ->
             SecretBytes secret = b) /\
  (forall b, DecodeString RawURLEncoding trimmed = Ok b ->
             (length b <> 16 /\ length b <> 24 /\ length b <> 32)%nat ->
             SecretBytes secret = bytes_of_string secret) /\
  ((forall b, DecodeString RawURLEncoding trimmed <> Ok b) ->
   SecretBytes secret = bytes_of_string secret) /\
  SecretBytes "AAAAAAAAAAAAAAAAAAAAAA" = repeat x00 16 /\
  DecodeString RawURLEncoding "AAAAAAAAAAAAAAAAAAAAAAA" = Ok (repeat x00 17) /\
  SecretBytes "AAAAAAAAAAAAAAAAAAAAAAA"
    = bytes_of_string "AAAAAAAAAAAAAAAAAAAAAAA".
Proof.
  cbv zeta. unfold SecretBytes. repeat split.
  - intros b -> Hlen. cbn [existsb].
    destruct Hlen as [-> | [-> | ->]]; reflexivity.
  - intros b -> (H16 & H24 & H32). cbn [existsb].
    apply Nat.eqb_neq in H16, H24, H32. now rewrite H16, H24, H32.
  - intros Hno.
    destruct (DecodeString RawURLEncoding (strings_TrimRight secret "="))
      as [b| |]; [|reflexivity|reflexivity].
    now destruct (Hno b).
Qed.

(** ** The ciphers *)

Lemma io_ReadFull_length (n : nat) :
  forall rd bs rd', io_ReadFull n rd = (Ok bs, rd') -> length bs = n.
Proof.
  induction n as [|n IH]; intros rd bs rd'; cbn [io_ReadFull].
  - intros [= <- _]. reflexivity.
  - destruct (rd O) as [b|]; [|discriminate].
    destruct (io_ReadFull n (fun i => rd (S i))) as [[tl|e|p] rd1] eqn:E;
      cbn [bindR]; intros [= <- _].
    cbn. f_equal. eapply IH, E.
Qed.

Lemma io_ReadFull_never_fails (n : nat) :
  forall rd, never_fails rd -> exists bs rd', io_ReadFull n rd = (Ok bs, rd').
Proof.
  induction n as [|n IH]; intros rd Hrd; cbn [io_ReadFull].
  - eauto.
  - destruct (rd O) as [b|] eqn:E0; [|now destruct (Hrd O)].
    destruct (IH (fun i => rd (S i))) as (tl & rd1 & ->).
    + intros i. apply Hrd.
    + cbn [bindR]. eauto.
Qed.

(** A read fails with [ErrReader] or returns; it does not panic. *)
Lemma io_ReadFull_no_panic (n : nat) :
  forall rd p rd', io_ReadFull n rd <> (Panic p, rd').
Proof.
  induction n as [|n IH]; intros rd p rd'; cbn [io_ReadFull]; [discriminate|].
  destruct (rd O) as [b|]; [|discriminate].
  destruct (io_ReadFull n (fun i => rd (S i))) as [[tl|e|q] rd1] eqn:E;
    cbn [bindR]; try discriminate.
  now destruct (IH _ _ _ E).
Qed.

(** A CFB decrypter that starts in the state of the encrypter recovers the
    text. *)
Lemma cfb_XORKeyStream_roundtrip (src : bytes) :
  forall b next out used,
    cfb_XORKeyStream (mkCfb b next out used true)
      (cfb_XORKeyStream (mkCfb b next out used false) src) = src.
Proof.
  induction src as [|s src IH]; intros b next out used; [reflexivity|].
  cbn [cfb_XORKeyStream cfb_b cfb_next cfb_out cfb_outUsed cfb_decrypt].
  rewrite byte_xor_involutive. f_equal. apply IH.
Qed.

Lemma cfb_XORKeyStream_length (src : bytes) :
  forall x, length (cfb_XORKeyStream x src) = length src.
Proof.
  induction src as [|s src IH]; intros x; cbn; [reflexivity|].
  now rewrite IH.
Qed.

Lemma firstn_app_exact {A} (l k : list A) : firstn (length l) (l ++ k) = l.
Proof. induction l; cbn; [now destruct k|congruence]. Qed.

Lemma skipn_app_exact {A} (l k : list A) : skipn (length l) (l ++ k) = k.
Proof. induction l; cbn; auto. Qed.

(** What [CFBCipher.Encrypt] returns: the IV it drew, followed by the
    stream. *)
Lemma CFBCipher_Encrypt_Ok (b : Block) (v ct : bytes) (rd rd' : Reader) :
  CFBCipher_Encrypt b v rd = (Ok ct, rd') ->
  exists iv, length iv = aes_BlockSize /\ length iv = BlockSize b /\
    ct = iv ++ cfb_XORKeyStream
                 (mkCfb b iv (repeat x00 (BlockSize b)) (BlockSize b) false) v.
Proof.
  unfold CFBCipher_Encrypt.
  destruct (io_ReadFull aes_BlockSize rd) as [[iv|e|p] rd1] eqn:E;
    [|discriminate|discriminate].
  unfold NewCFBEncrypter, newCFB.
  destruct (length iv =? BlockSize b)%nat eqn:El; cbn [bindR];
    [|discriminate].
  intros [= <- _]. exists iv. apply Nat.eqb_eq in El.
  split; [eapply io_ReadFull_length, E|]. split; [exact El|reflexivity].
Qed.

Lemma CFBCipher_roundtrips `{Crypto} (b : Block) :
  BlockSize b = aes_BlockSize -> roundtrips (CFBCipher b).
Proof.
  intros Hb v rd. cbn [Encrypt Decrypt]. split.
  - intros ct rd' HE.
    destruct (CFBCipher_Encrypt_Ok b v ct rd rd' HE) as (iv & Hiv & Hivb & ->).
    unfold CFBCipher_Decrypt.
    replace (length (iv ++ _) <? aes_BlockSize)%nat with false
      by (symmetry; apply Nat.ltb_ge; rewrite length_app; lia).
    unfold slice_to, slice_from.
    replace (aes_BlockSize <=? length (iv ++ _))%nat with true
      by (symmetry; apply Nat.leb_le; rewrite length_app; lia).
    cbn [bindR]. rewrite <- Hiv.
    rewrite firstn_app_exact, skipn_app_exact.
    unfold NewCFBDecrypter, newCFB. rewrite Hivb, Nat.eqb_refl. cbn [bindR].
    now rewrite cfb_XORKeyStream_roundtrip.
  - intros Hrd. unfold CFBCipher_Encrypt.
    destruct (io_ReadFull_never_fails aes_BlockSize rd Hrd) as (iv & rd1 & E).
    rewrite E. unfold NewCFBEncrypter, newCFB.
    rewrite (io_ReadFull_length _ _ _ _ E), Hb, Nat.eqb_refl. cbn [bindR].
    eauto.
Qed.

Lemma GCMCipher_roundtrips `{Crypto} (b : Block) (g : AEAD) :
  cipher_NewGCM b = Ok g -> AEAD_correct g -> roundtrips (GCMCipher b).
Proof.
  intros Hg Hlaw v rd. cbn [Encrypt Decrypt].
  unfold GCMCipher_Encrypt, GCMCipher_Decrypt. rewrite Hg. cbn [bindR]. split.
  - intros ct rd'.
    destruct (io_ReadFull (NonceSize g) rd) as [[nonce|e|p] rd1] eqn:E;
      [|discriminate|discriminate].
    pose proof (io_ReadFull_length _ _ _ _ E) as Hn.
    destruct (Hlaw nonce nonce v [] Hn) as (sealed & HS & HO).
    rewrite HS. intros [= <- _].
    unfold slice_to, slice_from.
    replace (NonceSize g <=? length (nonce ++ sealed))%nat with true
      by (symmetry; apply Nat.leb_le; rewrite length_app; lia).
    cbn [bindR]. rewrite <- Hn.
    rewrite firstn_app_exact, skipn_app_exact, HO. reflexivity.
  - intros Hrd.
    destruct (io_ReadFull_never_fails (NonceSize g) rd Hrd) as (nonce & rd1 & E).
    rewrite E.
    destruct (Hlaw nonce nonce v [] (io_ReadFull_length _ _ _ _ E))
      as (sealed & -> & _).
    eauto.
Qed.

Lemma Base64Cipher_roundtrips `{Crypto} (c : Cipher) :
  roundtrips c -> roundtrips (Base64Cipher c).
Proof.
  intros Hc v rd. destruct (Hc v rd) as [Hdec Henc].
  cbn [Encrypt Decrypt]. unfold Base64Cipher_Encrypt, Base64Cipher_Decrypt.
  split.
  - intros ct rd'.
    destruct (Encrypt c v rd) as [[enc|e|p] rd1] eqn:E;
      [|discriminate|discriminate].
    intros [= <- _]. rewrite string_of_bytes_of_string.
    rewrite (DecodeString_EncodeToString _ _ StdEncoding_ok).
    eapply Hdec. reflexivity.
  - intros Hrd. destruct (Henc Hrd) as (ct & rd' & ->). eauto.
Qed.

(** *** The instance [demo_Crypto] keeps the contract of GCM *)

Lemma pad_to_length (n : nat) (l : bytes) : length (pad_to n l) = n.
Proof.
  unfold pad_to. rewrite length_firstn, length_app, repeat_length. lia.
Qed.

Lemma ctr_xor_involutive (b : Block) (nonce text : bytes) :
  forall i, ctr_xor b nonce i (ctr_xor b nonce i text) = text.
Proof.
  induction text as [|x text IH]; intros i; cbn [ctr_xor]; [reflexivity|].
  now rewrite byte_xor_involutive, IH.
Qed.

Lemma demo_AEAD_correct (b : Block) :
  AEAD_correct (mkAEAD 12 16 (demo_Seal b) (demo_Open b)).
Proof.
  intros dst nonce plaintext ad Hn. cbn [NonceSize] in Hn.
  cbn [Seal Open]. unfold demo_Seal, demo_Open. rewrite Hn. cbn [Nat.eqb].
  set (ct := ctr_xor b nonce 0 plaintext).
  set (tag := demo_tag b nonce ct ad).
  assert (Ht : length tag = 16%nat) by apply pad_to_length.
  exists (ct ++ tag). split; [reflexivity|].
  replace (length (ct ++ tag) <? 16)%nat with false
    by (symmetry; apply Nat.ltb_ge; rewrite length_app; lia).
  replace (length (ct ++ tag) - 16)%nat with (length ct)
    by (rewrite length_app; lia).
  rewrite firstn_app_exact, skipn_app_exact. fold tag.
  rewrite bytes_eqb_refl. unfold ct. now rewrite ctr_xor_involutive.
Qed.

Lemma demo_GCM_correct : @GCM_correct demo_Crypto.
Proof.
  intros b Hb. cbn [cipher_NewGCM demo_Crypto]. unfold demo_NewGCM.
  rewrite Hb. cbn [Nat.eqb]. eexists. split; [reflexivity|].
  apply demo_AEAD_correct.
Qed.

(** *** The claims on the ciphers *)

(** C6.  For every key of 16, 24 or 32 bytes, the AES-CFB cipher, the
    AES-GCM cipher and the base64 decorator over each of them are
    constructed, and for every payload v and every reader, what [Encrypt]
    returns decrypts to v, and [Encrypt] returns when the reader does not
    fail.  GCM is taken with the contract of [cipher.AEAD]. *)
Theorem Decrypt_Encrypt_roundtrip `{Crypto} (key : bytes) :
  GCM_correct ->
  (length key = 16 \/ length key = 24 \/ length key = 32)%nat ->
  exists cfb gcm,
    NewCFBCipher key = Ok cfb /\
    NewGCMCipher key = Ok gcm /\
    NewBase64Cipher NewCFBCipher key = Ok (Base64Cipher cfb) /\
    NewBase64Cipher NewGCMCipher key = Ok (Base64Cipher gcm) /\
    roundtrips cfb /\ roundtrips gcm /\
    roundtrips (Base64Cipher cfb) /\ roundtrips (Base64Cipher gcm).
Proof.
  intros Hgcm Hkey.
  unfold NewBase64Cipher, NewCFBCipher, NewGCMCipher, aes_NewCipher.
  replace ((length key =? 16)%nat || (length key =? 24)%nat
           || (length key =? 32)%nat) with true
    by (destruct Hkey as [-> | [-> | ->]]; reflexivity).
  cbn [bindR]. set (b := mkBlock aes_BlockSize (aes_encryptBlock key)).
  destruct (Hgcm b eq_refl) as (g & Hg & Hlaw).
  assert (Hc : roundtrips (CFBCipher b)) by (apply CFBCipher_roundtrips; reflexivity).
  assert (Hg' : roundtrips (GCMCipher b)) by (eapply GCMCipher_roundtrips; eauto).
  exists (CFBCipher b), (GCMCipher b).
  repeat split; try reflexivity; try apply Hc; try apply Hg';
    try (apply (Base64Cipher_roundtrips _ Hc));
    try (apply (Base64Cipher_roundtrips _ Hg')).
Qed.

(** The key [0123456789abcdef], with the instance [demo_Crypto]. *)
Lemma Decrypt_Encrypt_roundtrip_witness :
  exists cfb gcm,
    @NewCFBCipher demo_Crypto (bytes_of_string "0123456789abcdef") = Ok cfb /\
    @NewGCMCipher demo_Crypto (bytes_of_string "0123456789abcdef") = Ok gcm /\
    NewBase64Cipher (@NewCFBCipher demo_Crypto)
      (bytes_of_string "0123456789abcdef") = Ok (Base64Cipher cfb) /\
    NewBase64Cipher (@NewGCMCipher demo_Crypto)
      (bytes_of_string "0123456789abcdef") = Ok (Base64Cipher gcm) /\
    @roundtrips demo_Crypto cfb /\ @roundtrips demo_Crypto gcm /\
    @roundtrips demo_Crypto (Base64Cipher cfb) /\
    @roundtrips demo_Crypto (Base64Cipher gcm).
Proof.
  apply (@Decrypt_Encrypt_roundtrip demo_Crypto
           (bytes_of_string "0123456789abcdef")).
  - exact demo_GCM_correct.
  - left. reflexivity.
Defined.

(** C9.  For every cipher variant, and for [into] with every transform,
    [EncryptInto] and [DecryptInto] on a nil pointer or on a pointer to the
    empty string leave the string as it is, return nil, and draw no
    randomness. *)
Theorem Into_nil_or_empty_is_noop (c : Cipher) (f : codecFunc) (rd : Reader) :
  EncryptInto c None rd = ((None, Ok tt), rd) /\
  EncryptInto c (Some EmptyString) rd = ((Some EmptyString, Ok tt), rd) /\
  DecryptInto c None rd = ((None, Ok tt), rd) /\
  DecryptInto c (Some EmptyString) rd = ((Some EmptyString, Ok tt), rd) /\
  into f None rd = ((None, Ok tt), rd) /\
  into f (Some EmptyString) rd = ((Some EmptyString, Ok tt), rd).
Proof.
  destruct c; repeat split; reflexivity.
Qed.

(** C10.  [into] is atomic on failure: for a non-nil pointer to a
    non-empty string, when the transform returns an error the string is
    left as it was and the same error is returned. *)
Theorem into_error_leaves_string
    (f : codecFunc) (s : string) (rd rd' : Reader) (e : error) :
  s <> EmptyString ->
  f (bytes_of_string s) rd = (Err e, rd') ->
  into f (Some s) rd = ((Some s, Err e), rd').
Proof.
  intros Hs Hf. unfold into.
  destruct (String.eqb_spec s EmptyString) as [->|_]; [contradiction|].
  now rewrite Hf.
Qed.

(** The base64 decorator cannot decode the text [!]. *)
Lemma into_error_leaves_string_witness :
  into (fun b => pureM (@Decrypt demo_Crypto (Base64Cipher DefaultCipher) b))
       (Some "!"%string) counting_Reader
  = ((Some "!"%string, Err (ErrBase64Decode CorruptInputError)), counting_Reader).
Proof.
  apply (into_error_leaves_string
           (fun b => pureM (@Decrypt demo_Crypto (Base64Cipher DefaultCipher) b))
           "!"%string counting_Reader counting_Reader
           (ErrBase64Decode CorruptInputError)).
  - discriminate.
  - reflexivity.
Defined.

(** The transform [EncryptInto] and [DecryptInto] run is [DefaultCipher]'s
    for every variant: the string is left as it is. *)
Lemma Into_leaves_string (c : Cipher) (s : option string) (rd : Reader) :
  EncryptInto c s rd = ((s, Ok tt), rd) /\
  DecryptInto c s rd = ((s, Ok tt), rd).
Proof.
  assert (G : into DefaultCipher_Encrypt s rd = ((s, Ok tt), rd) /\
              into (fun b => pureM (DefaultCipher_Decrypt b)) s rd
              = ((s, Ok tt), rd)).
  { destruct s as [str|]; [|split; reflexivity].
    unfold into, DefaultCipher_Encrypt, DefaultCipher_Decrypt, pureM.
    destruct (String.eqb str EmptyString); [split; reflexivity|].
    rewrite string_of_bytes_of_string. split; reflexivity. }
  destruct c; exact G.
Qed.

(** C2 does not hold of the code.  On a [CFBCipher], for every block,
    string and reader, [EncryptInto] and [DecryptInto] leave the string as
    it is.  The cipher's own [Encrypt], when it returns, returns 16 bytes
    more than the string has, and going through it, as [EncryptInto_own]
    does, would store these bytes: [EncryptInto] does not store the
    cipher's own encryption of the string. *)
Theorem EncryptInto_is_not_own_Encrypt `{Crypto}
    (b : Block) (s : string) (rd : Reader) :
  EncryptInto (CFBCipher b) (Some s) rd = ((Some s, Ok tt), rd) /\
  DecryptInto (CFBCipher b) (Some s) rd = ((Some s, Ok tt), rd) /\
  forall ct rd',
    Encrypt (CFBCipher b) (bytes_of_string s) rd = (Ok ct, rd') ->
    length ct = (16 + length (bytes_of_string s))%nat /\
    string_of_bytes ct <> s /\
    (s <> EmptyString ->
     EncryptInto_own (CFBCipher b) (Some s) rd
     = ((Some (string_of_bytes ct), Ok tt), rd')).
Proof.
  split; [apply Into_leaves_string|]. split; [apply Into_leaves_string|].
  intros ct rd' HE. pose proof HE as HE'. cbn [Encrypt] in HE.
  destruct (CFBCipher_Encrypt_Ok _ _ _ _ _ HE) as (iv & Hiv & _ & Hct).
  assert (Hlen : length ct = (16 + length (bytes_of_string s))%nat).
  { rewrite Hct, length_app, cfb_XORKeyStream_length, Hiv. reflexivity. }
  split; [exact Hlen|]. split.
  - intros Heq. apply (f_equal bytes_of_string) in Heq.
    rewrite bytes_of_string_of_bytes in Heq. rewrite Heq in Hlen. lia.
  - intros Hs. unfold EncryptInto_own, into.
    destruct (String.eqb_spec s EmptyString) as [->|_]; [contradiction|].
    now rewrite HE'.
Qed.

(** C3 does not hold of the code.  On an input shorter than the nonce,
    [GCMCipher.Decrypt] panics on its slice expressions; it returns no
    error. *)
Theorem GCMCipher_Decrypt_short_input_panics `{Crypto}
    (b : Block) (g : AEAD) (ciphertext : bytes) :
  cipher_NewGCM b = Ok g ->
  (length ciphertext < NonceSize g)%nat ->
  Decrypt (GCMCipher b) ciphertext = Panic SliceBoundsOutOfRange.
Proof.
  intros Hg Hlen. cbn [Decrypt]. unfold GCMCipher_Decrypt.
  rewrite Hg. cbn [bindR]. unfold slice_to.
  replace (NonceSize g <=? length ciphertext)%nat with false
    by (symmetry; apply Nat.leb_gt; exact Hlen).
  reflexivity.
Qed.

(** Three bytes given to a GCM cipher whose nonce has 12 bytes. *)
Lemma GCMCipher_Decrypt_short_input_panics_witness :
  @Decrypt demo_Crypto
    (GCMCipher (mkBlock 16 (demo_encryptBlock (bytes_of_string "0123456789abcdef"))))
    [x01; x02; x03]
  = Panic SliceBoundsOutOfRange.
Proof.
  apply (@GCMCipher_Decrypt_short_input_panics demo_Crypto
           (mkBlock 16 (demo_encryptBlock (bytes_of_string "0123456789abcdef")))
           (mkAEAD 12 16
              (demo_Seal (mkBlock 16 (demo_encryptBlock (bytes_of_string "0123456789abcdef"))))
              (demo_Open (mkBlock 16 (demo_encryptBlock (bytes_of_string "0123456789abcdef")))))
           [x01; x02; x03]).
  - reflexivity.
  - cbn. lia.
Defined.

(** An error of [Open], such as a tag that does not match, is returned as
    it is, with no plaintext. *)
Lemma GCMCipher_Decrypt_open_error `{Crypto}
    (b : Block) (g : AEAD) (ciphertext : bytes) (e : error) :
  cipher_NewGCM b = Ok g ->
  (NonceSize g <= length ciphertext)%nat ->
  Open g [] (firstn (NonceSize g) ciphertext)
       (skipn (NonceSize g) ciphertext) [] = Err e ->
  Decrypt (GCMCipher b) ciphertext = Err e.
Proof.
  intros Hg Hlen HO. cbn [Decrypt]. unfold GCMCipher_Decrypt.
  rewrite Hg. cbn [bindR]. unfold slice_to, slice_from.
  replace (NonceSize g <=? length ciphertext)%nat with true
    by (symmetry; apply Nat.leb_le; exact Hlen).
  cbn [bindR]. now rewrite HO.
Qed.

(** The sibling [CFBCipher.Decrypt] checks the length first and returns an
    error on a short input. *)
Lemma CFBCipher_Decrypt_short_input_error (b : Block) (ciphertext : bytes) :
  (length ciphertext < aes_BlockSize)%nat ->
  CFBCipher_Decrypt b ciphertext
  = Err (ErrTooShort aes_BlockSize (length ciphertext)).
Proof.
  intros Hlen. unfold CFBCipher_Decrypt.
  apply Nat.ltb_lt in Hlen. now rewrite Hlen.
Qed.

(* ================================================================== *)
(** * Evaluations

    Known answers for the library functions, and the envelope and the
    ciphers run on examples. *)

Example sha256_abc :
  hex (sha256_Sum (bytes_of_string "abc"))
  = "ba7816bf8f01cfea414140de5dae2223b00361a396177a9cb410ff61f20015ad"%string.
Proof. vm_compute. reflexivity. Qed.

Example sha1_abc :
  hex (sha1_Sum (bytes_of_string "abc"))
  = "a9993e364706816aba3e25717850c26c9cd0d89d"%string.
Proof. vm_compute. reflexivity. Qed.

Example sha256_two_blocks :
  hex (sha256_Sum (bytes_of_string
    "abcdbcdecdefdefgefghfghighijhijkijkljklmklmnlmnomnopnopq"))
  = "248d6a61d20638b8e5c026930c3e6039a33ce45964ff2167f6ecedd419db06c1"%string.
Proof. vm_compute. reflexivity. Qed.

Example hmac_sha256_rfc4231 :
  hex (HMAC sha256_New (bytes_of_string "Jefe")
            (bytes_of_string "what do ya want for nothing?"))
  = "5bdcc146bf60754e6a042426089575c75a003f089d2739839dec58b964ec3843"%string.
Proof. vm_compute. reflexivity. Qed.

Example hmac_sha1_rfc2202 :
  hex (HMAC sha1_New (bytes_of_string "Jefe")
            (bytes_of_string "what do ya want for nothing?"))
  = "effcdf6ae5eb2fa2d27416d5f184df9c259a7c79"%string.
Proof. vm_compute. reflexivity. Qed.

Example base64_known_answers :
  EncodeToString StdEncoding (bytes_of_string "hello world!?~")
    = "aGVsbG8gd29ybGQhP34="%string /\
  EncodeToString URLEncoding (bytes_of_string "hello world!?~>")
    = "aGVsbG8gd29ybGQhP34-"%string /\
  EncodeToString RawURLEncoding (bytes_of_string "hello world!?~>>")
    = "aGVsbG8gd29ybGQhP34-Pg"%string /\
  DecodeString URLEncoding "aGVsbA==" = Ok (bytes_of_string "hell") /\
  DecodeString URLEncoding "aGVsbB==" = Ok (bytes_of_string "hell") /\
  DecodeString URLEncoding "aGVsbA=" = Err CorruptInputError /\
  DecodeString URLEncoding "aGVsbA" = Err CorruptInputError /\
  DecodeString RawURLEncoding "aGVsbA" = Ok (bytes_of_string "hell") /\
  DecodeString RawURLEncoding "aGVsbA==" = Err CorruptInputError /\
  DecodeString StdEncoding "aGVsbG8gd29ybGQhP34-" = Err CorruptInputError.
Proof. vm_compute. repeat split; reflexivity. Qed.

Example Atoi_known_answers :
  map strconv_Atoi
      ["0"; "-0"; "+12"; "007"; "-9223372036854775808";
       "9223372036854775808"; EmptyString; "-"; "1_0"; "12a"; " 1"]%string
  = [Ok 0; Ok 0; Ok 12; Ok 7; Ok (-9223372036854775808);
     Err ErrRange; Err ErrSyntax; Err ErrSyntax; Err ErrSyntax;
     Err ErrSyntax; Err ErrSyntax].
Proof. vm_compute. reflexivity. Qed.

Example Split_known_answers :
  map (fun s => strings_Split s "|"%char)
      [EmptyString; "a"; "a|b"; "a||b|"]%string
  = [[EmptyString]; ["a"]; ["a"; "b"];
     ["a"; EmptyString; "b"; EmptyString]]%string.
Proof. vm_compute. reflexivity. Qed.

(** The expiry boundary: the cookie issued at T under an expiration of one
    hour is accepted a second before T + expiration and rejected from
    T + expiration on; it is accepted four minutes before T and rejected six
    minutes before T. *)
Example Validate_expiry_boundary :
  let run now := Validate (Some (mkCookie ex_name ex_cookie)) ex_seed one_hour
                          (clock_at (time_Unix now 0)) in
  run (ex_T + 3599) = Ok (Some ex_value, time_Unix ex_T 0, true) /\
  run (ex_T + 3600) = Ok (None, time_Unix ex_T 0, false) /\
  run (ex_T + 3601) = Ok (None, time_Unix ex_T 0, false) /\
  run (ex_T - 240) = Ok (Some ex_value, time_Unix ex_T 0, true) /\
  run (ex_T - 360) = Ok (None, time_Unix ex_T 0, false).
Proof. vm_compute. repeat split; reflexivity. Qed.

(** Envelopes of one, two and four fields, a forged signature and a
    timestamp that does not parse are rejected with zero outputs; a nil
    cookie makes [Validate] panic. *)
Example Validate_malformed :
  let run value := Validate (Some (mkCookie ex_name value)) ex_seed one_hour
                            (clock_at (time_Unix ex_T 0)) in
  run EmptyString = Ok (None, zeroTime, false) /\
  run "dXNlckBleGFtcGxlLmNvbQ=="%string = Ok (None, zeroTime, false) /\
  run "dXNlckBleGFtcGxlLmNvbQ==|1600000000"%string
    = Ok (None, zeroTime, false) /\
  run (ex_cookie ++ "|")%string = Ok (None, zeroTime, false) /\
  run "dXNlckBleGFtcGxlLmNvbQ==|1600000000|AAAA"%string
    = Ok (None, zeroTime, false) /\
  run "dXNlckBleGFtcGxlLmNvbQ==|160000000x|Ltks7ghDBCkptsGy4SvZQhcg0Wd9AtCxnRiFGcQ56Bg="%string
    = Ok (None, zeroTime, false) /\
  Validate None ex_seed one_hour (clock_at (time_Unix ex_T 0))
    = Panic NilPointerDereference.
Proof. vm_compute. repeat split; reflexivity. Qed.

(** The same fields signed with HMAC-SHA1 are accepted, signed with
    HMAC-MD5 they are not; a signed value field that is not base64url is
    rejected with the timestamp as the time. *)
Example Validate_legacy_and_undecodable :
  let run value := Validate (Some (mkCookie ex_name value)) ex_seed one_hour
                            (clock_at (time_Unix ex_T 0)) in
  run "dXNlckBleGFtcGxlLmNvbQ==|1600000000|uSYXN2C_lvEB6Zsykzwzo-jLaMw="%string
    = Ok (Some ex_value, time_Unix ex_T 0, true) /\
  run "dXNlckBleGFtcGxlLmNvbQ==|1600000000|3F2cVYj6YPbhLtJ19Gondg=="%string
    = Ok (None, zeroTime, false) /\
  run "not base64!|1600000000|xmlc4aGe0eM3uz3Wfr-KC4er0tc6JQMyzr6R_MAsYlI="%string
    = Ok (None, time_Unix ex_T 0, false).
Proof. vm_compute. repeat split; reflexivity. Qed.

(** The four ciphers over the key [0123456789abcdef], with [demo_Crypto]
    and the reader that counts: the payload comes back; [EncryptInto] on
    the CFB cipher leaves the string [a] where the cipher's own [Encrypt]
    returns 17 bytes; and a reader that fails makes the cipher's own
    [Encrypt] fail, with the string left as it was. *)
Example ciphers_run :
  let key := bytes_of_string "0123456789abcdef" in
  let payload := bytes_of_string "user@example.com" in
  let back (c : Result Cipher) :=
    c <- c ;;
    ct <- fst (@Encrypt demo_Crypto c payload counting_Reader) ;;
    @Decrypt demo_Crypto c ct in
  back (@NewCFBCipher demo_Crypto key) = Ok payload /\
  back (@NewGCMCipher demo_Crypto key) = Ok payload /\
  back (NewBase64Cipher (@NewCFBCipher demo_Crypto) key) = Ok payload /\
  back (NewBase64Cipher (@NewGCMCipher demo_Crypto) key) = Ok payload /\
  (c <- @NewCFBCipher demo_Crypto key ;;
   Ok (EncryptInto c (Some "a"%string) counting_Reader))
    = Ok ((Some "a"%string, Ok tt), counting_Reader) /\
  (c <- @NewCFBCipher demo_Crypto key ;;
   ct <- fst (@Encrypt demo_Crypto c (bytes_of_string "a") counting_Reader) ;;
   Ok (length ct)) = Ok 17%nat /\
  (c <- @NewCFBCipher demo_Crypto key ;;
   Ok (fst (@EncryptInto_own demo_Crypto c (Some "a"%string) failing_Reader)))
    = Ok (Some "a"%string, Err (ErrIV ErrReader)) /\
  (c <- @NewCFBCipher demo_Crypto (bytes_of_string "short") ;; Ok tt)
    = Err (KeySizeError 5).
Proof. vm_compute. repeat split; reflexivity. Qed.

(* ================================================================== *)
(** * Further properties of the envelope *)

Lemma envelope_split (p0 p1 p2 : string) :
  no_char "|"%char p0 = true -> no_char "|"%char p1 = true ->
  no_char "|"%char p2 = true ->
  strings_Split (p0 ++ "|" ++ p1 ++ "|" ++ p2)%string "|"%char = [p0; p1; p2].
Proof.
  intros H0 H1 H2.
  change ("|" ++ p1 ++ "|" ++ p2)%string
    with (String "|"%char (p1 ++ String "|"%char p2)).
  now rewrite (Split_app _ _ _ H0), (Split_app _ _ _ H1), (Split_no_sep _ _ H2).
Qed.

Lemma length_Split (sep : ascii) (s : string) :
  length (strings_Split s sep) = S (count_char sep s).
Proof.
  induction s as [|c s IH]; cbn [strings_Split count_char]; [reflexivity|].
  destruct (Ascii.eqb c sep).
  - cbn. now rewrite IH.
  - destruct (strings_Split s sep) as [|p ps]; [discriminate IH|exact IH].
Qed.

Lemma count_char_app (c : ascii) (a b : string) :
  count_char c (a ++ b) = (count_char c a + count_char c b)%nat.
Proof.
  induction a as [|x a IH]; cbn; [reflexivity|]. rewrite IH. lia.
Qed.

Lemma count_char_no_char (c : ascii) (s : string) :
  no_char c s = true -> count_char c s = O.
Proof.
  induction s as [|x s IH]; cbn; [reflexivity|].
  intros H. apply andb_true_iff in H as [Hx Hs].
  apply negb_true_iff in Hx. now rewrite Hx, (IH Hs).
Qed.

(** The envelope [SignedValue] returns, its fields, and how [Validate]
    treats it under any clock. *)
Lemma Validate_SignedValue (seed name : string) (v : bytes) (now : Time)
    (expiration : Duration) (clk : Clock) :
  - 2 ^ 63 <= Time_Unix now < 2 ^ 63 ->
  - 2 ^ 63 < expiration < 2 ^ 63 ->
  exists envelope,
    SignedValue seed name v now = Ok envelope /\
    Validate (Some (mkCookie name envelope)) seed expiration clk =
    if (clk 0%nat - expiration <? Time_Unix now * time_Second)
       && (Time_Unix now * time_Second <? clk 1%nat + 300 * time_Second)
    then Ok (Some v, time_Unix (Time_Unix now) 0, true)
    else Ok (None, time_Unix (Time_Unix now) 0, false).
Proof.
  intros Hnow Hexp.
  unfold SignedValue. rewrite cookieSignature_HMAC. cbn [bindR].
  set (p0 := EncodeToString URLEncoding v).
  set (p1 := Sprintf_d (Time_Unix now)).
  set (mac := HMAC sha256_New _ _).
  eexists. split; [reflexivity|].
  assert (Hsig : checkSignature (EncodeToString URLEncoding mac)
                   [seed; name; p0; p1] = Ok true).
  { rewrite checkSignature_key. fold mac. now rewrite checkHmac_own. }
  rewrite (Validate_signed name _ seed p0 p1 _ (Time_Unix now) expiration clk
             (envelope_split p0 p1 _
                (EncodeToString_no_sep _ v URLEncoding_ok)
                (Sprintf_d_no_sep _)
                (EncodeToString_no_sep _ mac URLEncoding_ok))
             Hsig (Atoi_Sprintf_d _ Hnow) Hexp).
  unfold p0. now rewrite (DecodeString_EncodeToString _ v URLEncoding_ok).
Qed.

(** X1.  [SignedValue] always returns, and what it returns is the
    base64url text of the value, the Unix seconds of now in decimal, and the
    base64url text of the HMAC-SHA256, under the seed, of the name followed
    by the first two fields, joined by two separators: it has exactly two
    '|' and splits into these three fields. *)
Theorem SignedValue_wire_format (seed key : string) (v : bytes) (now : Time) :
  let p0 := EncodeToString URLEncoding v in
  let p1 := Sprintf_d (Time_Unix now) in
  let p2 := EncodeToString URLEncoding
              (HMAC sha256_New (bytes_of_string seed)
                 (bytes_of_string key ++ bytes_of_string p0
                  ++ bytes_of_string p1)) in
  SignedValue seed key v now = Ok (p0 ++ "|" ++ p1 ++ "|" ++ p2)%string /\
  strings_Split (p0 ++ "|" ++ p1 ++ "|" ++ p2)%string "|"%char = [p0; p1; p2] /\
  count_char "|"%char (p0 ++ "|" ++ p1 ++ "|" ++ p2)%string = 2%nat.
Proof.
  cbv zeta. unfold SignedValue. rewrite cookieSignature_HMAC. cbn [bindR].
  cbn [map concat]. rewrite app_nil_r.
  set (p0 := EncodeToString URLEncoding v).
  set (p1 := Sprintf_d (Time_Unix now)).
  set (p2 := EncodeToString URLEncoding _).
  assert (H0 : no_char "|"%char p0 = true)
    by apply EncodeToString_no_sep, URLEncoding_ok.
  assert (H1 : no_char "|"%char p1 = true) by apply Sprintf_d_no_sep.
  assert (H2 : no_char "|"%char p2 = true)
    by apply EncodeToString_no_sep, URLEncoding_ok.
  split; [reflexivity|]. split; [now apply envelope_split|].
  pose proof (length_Split "|"%char (p0 ++ "|" ++ p1 ++ "|" ++ p2)%string) as HL.
  rewrite (envelope_split _ _ _ H0 H1 H2) in HL. cbn [length] in HL. lia.
Qed.

(** X2.  The lifetime of an envelope.  An envelope signed at now (with
    Unix seconds T in an int64) is, under every clock and every expiration
    other than the least int64, returned by [Validate] with the instant of T
    as its time, and accepted exactly when T is after the first reading of
    the clock less the expiration and before the second reading plus five
    minutes; when accepted, the value is the one that was signed. *)
Theorem SignedValue_lifetime (seed name : string) (v : bytes) (now : Time)
    (expiration : Duration) :
  - 2 ^ 63 <= Time_Unix now < 2 ^ 63 ->
  - 2 ^ 63 < expiration < 2 ^ 63 ->
  exists envelope,
    SignedValue seed name v now = Ok envelope /\
    forall clk, exists v' ok,
      Validate (Some (mkCookie name envelope)) seed expiration clk
        = Ok (v', time_Unix (Time_Unix now) 0, ok) /\
      (ok = true <-> in_window clk expiration (Time_Unix now)) /\
      (ok = true -> v' = Some v).
Proof.
  intros Hnow Hexp.
  destruct (Validate_SignedValue seed name v now expiration (clock_at 0)
              Hnow Hexp) as (env & HS & _).
  exists env. split; [exact HS|]. intros clk.
  destruct (Validate_SignedValue seed name v now expiration clk Hnow Hexp)
    as (env' & HS' & HV).
  assert (env' = env) by congruence. subst env'. rewrite HV.
  unfold in_window. change (5 * time_Minute) with (300 * time_Second).
  destruct (clk 0%nat - expiration <? Time_Unix now * time_Second) eqn:Elo;
    [apply Z.ltb_lt in Elo | apply Z.ltb_ge in Elo];
    (destruct (Time_Unix now * time_Second <? clk 1%nat + 300 * time_Second)
       eqn:Ehi; [apply Z.ltb_lt in Ehi | apply Z.ltb_ge in Ehi]); cbn [andb].
  1: { exists (Some v), true. repeat split; auto. }
  all: exists None, false; split; [reflexivity|];
       split; [split; [discriminate|lia]|discriminate].
Qed.

(** The example cookie, under an expiration of one hour. *)
Lemma SignedValue_lifetime_witness :
  exists envelope,
    SignedValue ex_seed ex_name ex_value (time_Unix ex_T 0) = Ok envelope /\
    forall clk, exists v' ok,
      Validate (Some (mkCookie ex_name envelope)) ex_seed one_hour clk
        = Ok (v', time_Unix (Time_Unix (time_Unix ex_T 0)) 0, ok) /\
      (ok = true <-> in_window clk one_hour (Time_Unix (time_Unix ex_T 0))) /\
      (ok = true -> v' = Some ex_value).
Proof.
  apply (SignedValue_lifetime ex_seed ex_name ex_value (time_Unix ex_T 0)
           one_hour).
  - vm_compute. split; [discriminate|reflexivity].
  - vm_compute. split; reflexivity.
Defined.

(** X3.  What an accepted cookie is.  For every cookie, clock and
    expiration other than the least int64, [Validate] returns ok = true with
    the value v and the time t if and only if the cookie value has exactly
    three fields, the third verifies as the signature of the name and the
    first two under the seed, the second parses as an integer T inside the
    window, the first is base64url text of v, and t is the instant of T. *)
Theorem Validate_accepts_iff (cookie : Cookie) (seed : string)
    (expiration : Duration) (clk : Clock) (v : option bytes) (t : Time) :
  - 2 ^ 63 < expiration < 2 ^ 63 ->
  (Validate (Some cookie) seed expiration clk = Ok (v, t, true) <->
   exists p0 p1 p2 T raw,
     strings_Split (Value cookie) "|"%char = [p0; p1; p2] /\
     checkSignature p2 [seed; Name cookie; p0; p1] = Ok true /\
     strconv_Atoi p1 = Ok T /\
     in_window clk expiration T /\
     DecodeString URLEncoding p0 = Ok raw /\
     v = Some raw /\ t = time_Unix T 0).
Proof.
  intros Hexp. destruct cookie as [name value]. cbn [Name Value].
  unfold in_window. change (5 * time_Minute) with (300 * time_Second). split.
  - intros HV.
    destruct (strings_Split value "|"%char) as [|p0 [|p1 [|p2 [|p3 l]]]] eqn:Es;
      try (unfold Validate in HV; cbn [Value Name] in HV; rewrite Es in HV;
           discriminate HV).
    destruct (checkSignature p2 [seed; name; p0; p1]) as [[|]|e|p] eqn:Ec;
      try (unfold Validate in HV; cbn [Value Name] in HV;
           rewrite Es, Ec in HV; discriminate HV).
    destruct (strconv_Atoi p1) as [T|e|p] eqn:Ea;
      try (unfold Validate in HV; cbn [Value Name] in HV;
           rewrite Es, Ec in HV; cbn [bindR] in HV; rewrite Ea in HV;
           discriminate HV).
    rewrite (Validate_signed _ _ _ _ _ _ _ _ _ Es Ec Ea Hexp) in HV.
    destruct (clk 0%nat - expiration <? T * time_Second) eqn:Elo;
      [apply Z.ltb_lt in Elo | discriminate HV].
    destruct (T * time_Second <? clk 1%nat + 300 * time_Second) eqn:Ehi;
      [apply Z.ltb_lt in Ehi | discriminate HV].
    cbn [andb] in HV.
    destruct (DecodeString URLEncoding p0) as [raw|e|p] eqn:Ed;
      [|discriminate HV|discriminate HV].
    injection HV as <- <-. exists p0, p1, p2, T, raw. repeat split; auto.
  - intros (p0 & p1 & p2 & T & raw & Es & Ec & Ea & [Hlo Hhi] & Ed & -> & ->).
    rewrite (Validate_signed _ _ _ _ _ _ _ _ _ Es Ec Ea Hexp), Ed.
    apply Z.ltb_lt in Hlo, Hhi. now rewrite Hlo, Hhi.
Qed.

(** The example cookie, a minute after it was issued. *)
Lemma Validate_accepts_iff_witness :
  Validate (Some (mkCookie ex_name ex_cookie)) ex_seed one_hour
           (clock_at (time_Unix (ex_T + 60) 0))
    = Ok (Some ex_value, time_Unix ex_T 0, true) <->
  exists p0 p1 p2 T raw,
    strings_Split (Value (mkCookie ex_name ex_cookie)) "|"%char = [p0; p1; p2] /\
    checkSignature p2 [ex_seed; Name (mkCookie ex_name ex_cookie); p0; p1]
      = Ok true /\
    strconv_Atoi p1 = Ok T /\
    in_window (clock_at (time_Unix (ex_T + 60) 0)) one_hour T /\
    DecodeString URLEncoding p0 = Ok raw /\
    Some ex_value = Some raw /\ time_Unix ex_T 0 = time_Unix T 0.
Proof.
  apply (Validate_accepts_iff (mkCookie ex_name ex_cookie) ex_seed one_hour
           (clock_at (time_Unix (ex_T + 60) 0)) (Some ex_value)
           (time_Unix ex_T 0)).
  vm_compute. split; reflexivity.
Defined.

(** X4.  A cookie value that does not contain exactly two '|' is
    rejected with zero outputs, whatever the seed, name, clock and
    expiration. *)
Theorem Validate_rejects_field_count (name value seed : string)
    (expiration : Duration) (clk : Clock) :
  count_char "|"%char value <> 2%nat ->
  Validate (Some (mkCookie name value)) seed expiration clk
  = Ok (None, zeroTime, false).
Proof.
  intros Hc. unfold Validate. cbn [Value].
  pose proof (length_Split "|"%char value) as HL.
  destruct (strings_Split value "|"%char) as [|p0 [|p1 [|p2 [|p3 l]]]];
    try reflexivity.
  cbn [length] in HL. lia.
Qed.

(** An envelope with a fourth field. *)
Lemma Validate_rejects_field_count_witness :
  Validate (Some (mkCookie ex_name (ex_cookie ++ "|extra")%string)) ex_seed
           one_hour (clock_at (time_Unix ex_T 0))
  = Ok (None, zeroTime, false).
Proof.
  apply (Validate_rejects_field_count ex_name (ex_cookie ++ "|extra")%string
           ex_seed one_hour (clock_at (time_Unix ex_T 0))).
  vm_compute. discriminate.
Defined.

(** X5.  Signing then checking.  The signature [cookieSignature] computes
    over a key and any further arguments, with SHA-256 or with the legacy
    SHA-1, is accepted by [checkSignature] over the same arguments. *)
Theorem cookieSignature_checkSignature (key : string) (rest : list string) :
  (sig <- cookieSignature sha256_New (key :: rest) ;;
   checkSignature sig (key :: rest)) = Ok true /\
  (sig <- cookieSignature sha1_New (key :: rest) ;;
   checkSignature sig (key :: rest)) = Ok true.
Proof.
  rewrite !cookieSignature_HMAC. cbn [bindR]. rewrite !checkSignature_key.
  rewrite !checkHmac_own. now rewrite orb_true_r.
Qed.

(** ** Newlines in the signature field *)

Lemma skip_newlines_cases (s : string) :
  (skip_newlines s = EmptyString /\ strip_newlines s = EmptyString) \/
  exists c r, is_newline c = false /\
    skip_newlines s = String c r /\
    strip_newlines s = String c (strip_newlines r).
Proof.
  induction s as [|c s IH]; [left; split; reflexivity|].
  cbn [skip_newlines strip_newlines]. destruct (is_newline c) eqn:E.
  - exact IH.
  - right. exists c, s. auto.
Qed.

Lemma skip_newlines_head (c : ascii) (r : string) :
  is_newline c = false -> skip_newlines (String c r) = String c r.
Proof. intros H. cbn. now rewrite H. Qed.

Lemma decode_padding_strip (enc : Encoding) (j : nat) (dbuf : list Z)
    (rest : string) :
  decode_padding enc j dbuf (strip_newlines rest)
  = decode_padding enc j dbuf rest.
Proof.
  assert (G : forall s (A : Type) (a b : A),
             match skip_newlines (strip_newlines s) with
             | EmptyString => a | String _ _ => b end
             = match skip_newlines s with
               | EmptyString => a | String _ _ => b end).
  { intros s A a b.
    destruct (skip_newlines_cases s) as [[-> ->] | (c & r & Hc & -> & ->)];
      [reflexivity|]. now rewrite skip_newlines_head. }
  destruct j as [|[|[|j]]]; cbn [decode_padding]; try reflexivity.
  - destruct (skip_newlines_cases rest) as [[-> ->] | (c & r & Hc & -> & ->)];
      [reflexivity|].
    rewrite skip_newlines_head by exact Hc.
    destruct (is_pad enc c); [apply G|reflexivity].
  - apply G.
Qed.

Lemma newline_not_symbol (enc : Encoding) (c : ascii) :
  alphabet_plain enc = true -> is_newline c = true -> decodeMap enc c = 255.
Proof.
  unfold alphabet_plain, is_newline. intros H Hc.
  do 4 (apply andb_true_iff in H as [H ?]).
  apply orb_true_iff in Hc as [Hc | Hc]; apply Ascii.eqb_eq in Hc; subst c; lia.
Qed.

Lemma decode_loop_strip (enc : Encoding) (s : string) :
  alphabet_plain enc = true ->
  forall j dbuf,
    decode_loop enc j dbuf (strip_newlines s) = decode_loop enc j dbuf s.
Proof.
  intros Henc. induction s as [|c s IH]; intros j dbuf; [reflexivity|].
  cbn [strip_newlines]. destruct (is_newline c) eqn:E.
  - rewrite IH. cbn [decode_loop].
    rewrite (newline_not_symbol enc c Henc E), E. reflexivity.
  - cbn [decode_loop]. rewrite E.
    destruct (negb (decodeMap enc c =? 255)).
    + destruct (j =? 3)%nat; now rewrite IH.
    + destruct (is_pad enc c); [apply decode_padding_strip|reflexivity].
Qed.

Lemma URLEncoding_plain : alphabet_plain URLEncoding = true.
Proof. vm_compute. reflexivity. Qed.

Lemma RawURLEncoding_plain : alphabet_plain RawURLEncoding = true.
Proof. vm_compute. reflexivity. Qed.

Lemma checkSignature_strip (signature : string) (args : list string) :
  checkSignature (strip_newlines signature) args = checkSignature signature args.
Proof.
  unfold checkSignature, checkHmac, DecodeString.
  now rewrite !(decode_loop_strip URLEncoding signature URLEncoding_plain).
Qed.

(** X6.  The signature field is read modulo line breaks.  Two cookies
    that differ only by carriage returns and line feeds inside the signature
    field get the same result from [Validate]: a valid cookie stays valid
    when line breaks are put into its signature. *)
Theorem Validate_signature_modulo_newlines (name seed p0 p1 p2 p2' : string)
    (expiration : Duration) (clk : Clock) :
  no_char "|"%char p0 = true -> no_char "|"%char p1 = true ->
  no_char "|"%char p2 = true -> no_char "|"%char p2' = true ->
  strip_newlines p2' = strip_newlines p2 ->
  Validate (Some (mkCookie name (p0 ++ "|" ++ p1 ++ "|" ++ p2')%string))
           seed expiration clk
  = Validate (Some (mkCookie name (p0 ++ "|" ++ p1 ++ "|" ++ p2)%string))
             seed expiration clk.
Proof.
  intros H0 H1 H2 H2' Hs. unfold Validate. cbn [Value Name].
  rewrite (envelope_split _ _ _ H0 H1 H2), (envelope_split _ _ _ H0 H1 H2').
  rewrite <- (checkSignature_strip p2'), Hs, checkSignature_strip.
  reflexivity.
Qed.

(** The example cookie with a line feed in the middle of its signature and
    a carriage return and a line feed at its end. *)
Lemma Validate_signature_modulo_newlines_witness :
  Validate (Some (mkCookie ex_name
              (ex_p0 ++ "|" ++ ex_p1 ++ "|"
               ++ ("Ltks7ghDBCkptsGy4SvZ" ++ String "010"%char
                     ("Qhcg0Wd9AtCxnRiFGcQ56Bg="
                      ++ String "013"%char (String "010"%char EmptyString))))%string))
           ex_seed one_hour (clock_at (time_Unix ex_T 0))
  = Validate (Some (mkCookie ex_name (ex_p0 ++ "|" ++ ex_p1 ++ "|" ++ ex_p2)%string))
             ex_seed one_hour (clock_at (time_Unix ex_T 0)).
Proof.
  apply (Validate_signature_modulo_newlines ex_name ex_seed ex_p0 ex_p1 ex_p2
           ("Ltks7ghDBCkptsGy4SvZ" ++ String "010"%char
              ("Qhcg0Wd9AtCxnRiFGcQ56Bg="
               ++ String "013"%char (String "010"%char EmptyString)))%string
           one_hour (clock_at (time_Unix ex_T 0)));
    vm_compute; reflexivity.
Defined.

(** * Further properties of SecretBytes *)

Lemma length_bytes_of_string (s : string) :
  length (bytes_of_string s) = String.length s.
Proof.
  unfold bytes_of_string, list_byte_of_string.
  rewrite length_map. induction s as [|c s IH]; cbn; congruence.
Qed.

Lemma TrimRight_padding_only (n : nat) :
  strings_TrimRight (string_of_list_ascii (repeat "="%char n)) "="
  = EmptyString.
Proof.
  induction n as [|n IH]; [reflexivity|].
  cbn [repeat string_of_list_ascii strings_TrimRight]. now rewrite IH.
Qed.

(** Trimming takes the padding off a text that has no '='. *)
Lemma TrimRight_app_padding (raw : string) (n : nat) :
  no_char "="%char raw = true ->
  strings_TrimRight (raw ++ string_of_list_ascii (repeat "="%char n)) "="
  = raw.
Proof.
  induction raw as [|c raw IH]; intros H; [apply TrimRight_padding_only|].
  cbn [no_char] in H. apply andb_true_iff in H as [Hc Hr].
  apply negb_true_iff in Hc.
  cbn [String.append strings_TrimRight]. rewrite (IH Hr).
  destruct raw; [|reflexivity].
  cbn [in_cutset]. rewrite Ascii.eqb_sym, Hc. reflexivity.
Qed.

Lemma TrimRight_no_padding (s : string) :
  no_char "="%char s = true -> strings_TrimRight s "=" = s.
Proof.
  intros H. pose proof (TrimRight_app_padding s 0 H) as G.
  cbn [repeat string_of_list_ascii] in G.
  replace (s ++ EmptyString)%string with s in G; [exact G|].
  clear. induction s; cbn; congruence.
Qed.

Lemma encode_at_not_pad (enc : Encoding) (i : Z) :
  alphabet_plain enc = true -> 0 <= i < 64 ->
  Ascii.eqb (encode_at enc i) "="%char = false.
Proof.
  unfold alphabet_plain. intros H Hi.
  do 4 (apply andb_true_iff in H as [H _]).
  rewrite forallb_forall in H. specialize (H i (In_sextets i Hi)).
  now apply negb_true_iff in H.
Qed.

Lemma Raw_encode_no_pad (src : bytes) :
  no_char "="%char (EncodeToString RawURLEncoding src) = true.
Proof.
  induction src as [|x|x y|x y z l IH] using bytes_ind3;
    cbn [EncodeToString no_char];
    rewrite ?(encode_at_not_pad _ _ RawURLEncoding_plain) by apply sextet_range;
    rewrite ?IH; reflexivity.
Qed.

(** The padded text is the unpadded text followed by its padding. *)
Lemma URL_encode_raw_padding (src : bytes) :
  exists n,
    EncodeToString URLEncoding src
    = (EncodeToString RawURLEncoding src
       ++ string_of_list_ascii (repeat "="%char n))%string.
Proof.
  induction src as [|x|x y|x y z l [n IH]] using bytes_ind3.
  - exists O. reflexivity.
  - exists 2%nat. reflexivity.
  - exists 1%nat. reflexivity.
  - exists n. cbn [EncodeToString]. rewrite IH. reflexivity.
Qed.

(** X7.  A key of 16, 24 or 32 bytes written as base64url, with its
    padding or without, is read back by [SecretBytes] as the key. *)
Theorem SecretBytes_of_encoded_key (key : bytes) :
  (length key = 16 \/ length key = 24 \/ length key = 32)%nat ->
  SecretBytes (EncodeToString URLEncoding key) = key /\
  SecretBytes (EncodeToString RawURLEncoding key) = key.
Proof.
  intros Hlen.
  assert (Hex : existsb (fun i => (length key =? i)%nat) [16; 24; 32]%nat = true)
    by (destruct Hlen as [-> | [-> | ->]]; reflexivity).
  destruct (URL_encode_raw_padding key) as [n Hn].
  unfold SecretBytes. split.
  - rewrite Hn, (TrimRight_app_padding _ n (Raw_encode_no_pad key)).
    rewrite (DecodeString_EncodeToString _ key RawURLEncoding_ok).
    now rewrite Hex.
  - rewrite (TrimRight_no_padding _ (Raw_encode_no_pad key)).
    rewrite (DecodeString_EncodeToString _ key RawURLEncoding_ok).
    now rewrite Hex.
Qed.

(** The key of sixteen zero bytes. *)
Lemma SecretBytes_of_encoded_key_witness :
  SecretBytes (EncodeToString URLEncoding (repeat x00 16)) = repeat x00 16 /\
  SecretBytes (EncodeToString RawURLEncoding (repeat x00 16)) = repeat x00 16.
Proof.
  apply (SecretBytes_of_encoded_key (repeat x00 16)).
  left. reflexivity.
Defined.

Lemma decode_loop_any_symbol (enc : Encoding) (j : nat) (dbuf : list Z)
    (c : ascii) (rest : string) :
  negb (decodeMap enc c =? 255) = true ->
  decode_loop enc j dbuf (String c rest) =
  if (j =? 3)%nat then
    tl <- decode_loop enc 0 [] rest ;;
    Ok (quantum_bytes 4 (dbuf ++ [decodeMap enc c]) ++ tl)
  else decode_loop enc (S j) (dbuf ++ [decodeMap enc c]) rest.
Proof. intros H. cbn [decode_loop]. now rewrite H. Qed.

(** A text of 4n characters of the alphabet decodes to 3n bytes. *)
Lemma DecodeString_symbols (enc : Encoding) (n : nat) :
  forall s, all_symbols enc s = true -> String.length s = (4 * n)%nat ->
    exists b, DecodeString enc s = Ok b /\ length b = (3 * n)%nat.
Proof.
  unfold DecodeString. induction n as [|n IH]; intros s Hs Hl.
  - destruct s; [|discriminate Hl]. exists []. split; reflexivity.
  - destruct s as [|c1 [|c2 [|c3 [|c4 s]]]]; cbn [String.length] in Hl; try lia.
    cbn [all_symbols] in Hs.
    apply andb_true_iff in Hs as [H1 Hs]. apply andb_true_iff in Hs as [H2 Hs].
    apply andb_true_iff in Hs as [H3 Hs]. apply andb_true_iff in Hs as [H4 Hs].
    destruct (IH s Hs ltac:(lia)) as (b & Hb & Hlen).
    rewrite (decode_loop_any_symbol _ _ _ _ _ H1). cbn [Nat.eqb].
    rewrite (decode_loop_any_symbol _ _ _ _ _ H2). cbn [Nat.eqb].
    rewrite (decode_loop_any_symbol _ _ _ _ _ H3). cbn [Nat.eqb].
    rewrite (decode_loop_any_symbol _ _ _ _ _ H4). cbn [Nat.eqb].
    rewrite Hb. cbn [bindR]. eexists. split; [reflexivity|].
    rewrite length_app, Hlen. unfold quantum_bytes. cbn [Nat.sub firstn length].
    lia.
Qed.

Lemma all_symbols_no_pad (enc : Encoding) (s : string) :
  alphabet_plain enc = true -> all_symbols enc s = true ->
  no_char "="%char s = true.
Proof.
  intros Henc. unfold alphabet_plain in Henc.
  apply andb_true_iff in Henc as [Henc _].
  apply andb_true_iff in Henc as [_ Hpad].
  induction s as [|c s IH]; cbn [all_symbols no_char]; [reflexivity|].
  intros H. apply andb_true_iff in H as [Hc Hs]. rewrite (IH Hs), andb_true_r.
  destruct (Ascii.eqb_spec c "="%char) as [->|_]; [|reflexivity].
  rewrite Hpad in Hc. discriminate Hc.
Qed.

(** X8.  A secret made of 4n characters of the base64url alphabet is
    decoded to 3n bytes, and these are the key only for n = 8: a secret of
    32 such characters gives a key of 24 bytes, not the 32 bytes of the
    secret; for every other n (16 or 24 characters among them) the key is
    the bytes of the secret itself. *)
Theorem SecretBytes_of_alphabet_secret (secret : string) (n : nat) :
  all_symbols RawURLEncoding secret = true ->
  String.length secret = (4 * n)%nat ->
  (n = 8%nat -> length (SecretBytes secret) = 24%nat /\
                SecretBytes secret <> bytes_of_string secret) /\
  (n <> 8%nat -> SecretBytes secret = bytes_of_string secret).
Proof.
  intros Hs Hl. unfold SecretBytes.
  rewrite (TrimRight_no_padding _
             (all_symbols_no_pad _ _ RawURLEncoding_plain Hs)).
  destruct (DecodeString_symbols RawURLEncoding n secret Hs Hl)
    as (b & -> & Hb).
  cbn [existsb]. rewrite Hb. split.
  - intros ->. cbn. split; [exact Hb|].
    intros Heq. apply (f_equal (@length byte)) in Heq.
    rewrite length_bytes_of_string, Hb, Hl in Heq. lia.
  - intros Hn.
    replace (3 * n =? 16)%nat with false by (symmetry; apply Nat.eqb_neq; lia).
    replace (3 * n =? 24)%nat with false by (symmetry; apply Nat.eqb_neq; lia).
    replace (3 * n =? 32)%nat with false by (symmetry; apply Nat.eqb_neq; lia).
    reflexivity.
Qed.

(** A secret of 32 letters and digits. *)
Lemma SecretBytes_of_alphabet_secret_witness :
  (8%nat = 8%nat ->
   length (SecretBytes "0123456789abcdef0123456789abcdef") = 24%nat /\
   SecretBytes "0123456789abcdef0123456789abcdef"
     <> bytes_of_string "0123456789abcdef0123456789abcdef") /\
  (8%nat <> 8%nat ->
   SecretBytes "0123456789abcdef0123456789abcdef"
     = bytes_of_string "0123456789abcdef0123456789abcdef").
Proof.
  apply (SecretBytes_of_alphabet_secret "0123456789abcdef0123456789abcdef" 8);
    vm_compute; reflexivity.
Defined.

(** X9.  A cipher constructed from [SecretBytes].  For every secret,
    [NewCFBCipher] and [NewGCMCipher] on [SecretBytes] of the secret either
    succeed, or the secret was taken as its own bytes and the error is the
    key size error for the length of the secret: a decoded secret never
    has a length that AES refuses. *)
Theorem NewCipher_of_SecretBytes `{Crypto} (secret : string) :
  ((exists c, NewCFBCipher (SecretBytes secret) = Ok c) /\
   (exists c, NewGCMCipher (SecretBytes secret) = Ok c)) \/
  (SecretBytes secret = bytes_of_string secret /\
   NewCFBCipher (SecretBytes secret)
     = Err (KeySizeError (String.length secret)) /\
   NewGCMCipher (SecretBytes secret)
     = Err (KeySizeError (String.length secret))).
Proof.
  assert (G : forall key,
             ((exists c, NewCFBCipher key = Ok c) /\
              (exists c, NewGCMCipher key = Ok c)) \/
             (NewCFBCipher key = Err (KeySizeError (length key)) /\
              NewGCMCipher key = Err (KeySizeError (length key)))).
  { intros key. unfold NewCFBCipher, NewGCMCipher, aes_NewCipher.
    destruct ((length key =? 16)%nat || (length key =? 24)%nat
              || (length key =? 32)%nat); cbn [bindR]; eauto. }
  unfold SecretBytes.
  destruct (DecodeString RawURLEncoding (strings_TrimRight secret "="))
    as [b|e|p].
  - cbn [existsb].
    destruct (length b =? 16)%nat eqn:E1, (length b =? 24)%nat eqn:E2,
             (length b =? 32)%nat eqn:E3; cbn [orb];
      try (left; unfold NewCFBCipher, NewGCMCipher, aes_NewCipher;
           rewrite E1, E2, E3; cbn [orb bindR]; split; eexists; reflexivity).
    destruct (G (bytes_of_string secret)) as [Hok | [H1 H2]]; [now left|].
    right. rewrite length_bytes_of_string in H1, H2. auto.
  - destruct (G (bytes_of_string secret)) as [Hok | [H1 H2]]; [now left|].
    right. rewrite length_bytes_of_string in H1, H2. auto.
  - destruct (G (bytes_of_string secret)) as [Hok | [H1 H2]]; [now left|].
    right. rewrite length_bytes_of_string in H1, H2. auto.
Qed.

(* ================================================================== *)
(** * Further properties of the ciphers *)

(** What [io.ReadFull] returns: the first [n] bytes of the reader, which is
    left [n] bytes further; or the error of the reader, when one of the
    first [n] reads fails. *)
Lemma io_ReadFull_delivers (n : nat) :
  forall rd, (forall i, (i < n)%nat -> rd i <> None) ->
    exists bs,
      io_ReadFull n rd = (Ok bs, fun i => rd (n + i)%nat) /\
      length bs = n /\
      forall i, (i < n)%nat -> rd i = Some (nth i bs x00).
Proof.
  induction n as [|n IH]; intros rd Hrd; cbn [io_ReadFull].
  - exists []. repeat split. intros i Hi. lia.
  - destruct (rd O) as [b|] eqn:E0; [|now destruct (Hrd O ltac:(lia))].
    destruct (IH (fun i => rd (S i))) as (bs & -> & Hlen & Hnth).
    + intros i Hi. apply Hrd. lia.
    + cbn [bindR]. exists (b :: bs). repeat split.
      * cbn. now rewrite Hlen.
      * intros [|i] Hi; [exact E0|]. cbn [nth]. apply Hnth. lia.
Qed.

Lemma io_ReadFull_fails (n : nat) :
  forall rd i, (i < n)%nat -> rd i = None ->
    exists rd', io_ReadFull n rd = (Err ErrReader, rd').
Proof.
  induction n as [|n IH]; intros rd i Hi Hnone; [lia|].
  cbn [io_ReadFull]. destruct (rd O) as [b|] eqn:E0; [|eauto].
  destruct i as [|i]; [congruence|].
  destruct (IH (fun j => rd (S j)) i ltac:(lia) Hnone) as (rd' & ->).
  cbn [bindR]. eauto.
Qed.

(** X10.  Every input of at least 16 bytes is a CFB ciphertext.  On a
    block of 16 bytes, [CFBCipher.Decrypt] returns the too-short error for
    an input of fewer than 16 bytes and otherwise returns a plaintext that
    is 16 bytes shorter than the input; it never panics and never refuses
    an input for its content. *)
Theorem CFBCipher_Decrypt_total (c : Block) (ciphertext : bytes) :
  BlockSize c = aes_BlockSize ->
  ((length ciphertext < 16)%nat ->
   CFBCipher_Decrypt c ciphertext = Err (ErrTooShort 16 (length ciphertext))) /\
  ((16 <= length ciphertext)%nat ->
   exists plaintext,
     CFBCipher_Decrypt c ciphertext = Ok plaintext /\
     length plaintext = (length ciphertext - 16)%nat).
Proof.
  intros Hc. split; [apply CFBCipher_Decrypt_short_input_error|].
  intros Hlen. unfold CFBCipher_Decrypt, aes_BlockSize, slice_to, slice_from.
  replace (length ciphertext <? 16)%nat with false
    by (symmetry; apply Nat.ltb_ge; exact Hlen).
  replace (16 <=? length ciphertext)%nat with true
    by (symmetry; apply Nat.leb_le; exact Hlen).
  cbn [bindR]. unfold NewCFBDecrypter, newCFB.
  rewrite length_firstn, Hc. unfold aes_BlockSize.
  replace (Nat.min 16 (length ciphertext) =? 16)%nat with true
    by (symmetry; apply Nat.eqb_eq; lia).
  cbn [bindR]. eexists. split; [reflexivity|].
  now rewrite cfb_XORKeyStream_length, length_skipn.
Qed.

(** Twenty bytes, to a block of SHA-256. *)
Lemma CFBCipher_Decrypt_total_witness :
  ((length (repeat x41 20) < 16)%nat ->
   CFBCipher_Decrypt (mkBlock 16 (demo_encryptBlock (repeat x00 16)))
                     (repeat x41 20)
   = Err (ErrTooShort 16 (length (repeat x41 20)))) /\
  ((16 <= length (repeat x41 20))%nat ->
   exists plaintext,
     CFBCipher_Decrypt (mkBlock 16 (demo_encryptBlock (repeat x00 16)))
                       (repeat x41 20) = Ok plaintext /\
     length plaintext = (length (repeat x41 20) - 16)%nat).
Proof.
  apply (CFBCipher_Decrypt_total
           (mkBlock 16 (demo_encryptBlock (repeat x00 16))) (repeat x41 20)).
  reflexivity.
Defined.

(** X11.  What [CFBCipher.Encrypt] returns.  On a block of 16 bytes: when
    the reader delivers its first 16 bytes, the result is these 16 bytes,
    as the IV, followed by as many bytes as the value has, and the reader is
    left 16 bytes further; when one of the first 16 reads fails, the result
    is the IV error around the reader's error.  It never panics. *)
Theorem CFBCipher_Encrypt_result (c : Block) (value : bytes) (rd : Reader) :
  BlockSize c = aes_BlockSize ->
  ((forall i, (i < 16)%nat -> rd i <> None) ->
   exists ct,
     CFBCipher_Encrypt c value rd = (Ok ct, fun i => rd (16 + i)%nat) /\
     length ct = (16 + length value)%nat /\
     forall i, (i < 16)%nat -> rd i = Some (nth i ct x00)) /\
  ((exists i, (i < 16)%nat /\ rd i = None) ->
   fst (CFBCipher_Encrypt c value rd) = Err (ErrIV ErrReader)).
Proof.
  intros Hc. unfold CFBCipher_Encrypt, aes_BlockSize. split.
  - intros Hrd.
    destruct (io_ReadFull_delivers 16 rd Hrd) as (iv & -> & Hlen & Hnth).
    unfold NewCFBEncrypter, newCFB. rewrite Hlen, Hc. cbn [Nat.eqb bindR].
    eexists. split; [reflexivity|]. split.
    + now rewrite length_app, cfb_XORKeyStream_length, Hlen.
    + intros i Hi. rewrite app_nth1 by lia. now apply Hnth.
  - intros (i & Hi & Hnone).
    destruct (io_ReadFull_fails 16 rd i Hi Hnone) as (rd' & ->). reflexivity.
Qed.

(** The reader that counts, and a value of three bytes. *)
Lemma CFBCipher_Encrypt_result_witness :
  ((forall i, (i < 16)%nat -> counting_Reader i <> None) ->
   exists ct,
     CFBCipher_Encrypt (mkBlock 16 (demo_encryptBlock (repeat x00 16)))
                       [x01; x02; x03] counting_Reader
       = (Ok ct, fun i => counting_Reader (16 + i)%nat) /\
     length ct = (16 + length [x01; x02; x03])%nat /\
     forall i, (i < 16)%nat -> counting_Reader i = Some (nth i ct x00)) /\
  ((exists i, (i < 16)%nat /\ counting_Reader i = None) ->
   fst (CFBCipher_Encrypt (mkBlock 16 (demo_encryptBlock (repeat x00 16)))
                          [x01; x02; x03] counting_Reader)
   = Err (ErrIV ErrReader)).
Proof.
  apply (CFBCipher_Encrypt_result
           (mkBlock 16 (demo_encryptBlock (repeat x00 16)))
           [x01; x02; x03] counting_Reader).
  reflexivity.
Defined.

Lemma decode_padding_no_panic (enc : Encoding) (j : nat) (dbuf : list Z)
    (rest : string) (p : panic) :
  decode_padding enc j dbuf rest <> Panic p.
Proof.
  destruct j as [|[|[|j]]]; cbn [decode_padding]; try discriminate.
  - destruct (skip_newlines rest) as [|c r]; [discriminate|].
    destruct (is_pad enc c); [|discriminate].
    destruct (skip_newlines r); discriminate.
  - destruct (skip_newlines rest); discriminate.
Qed.

(** Decoding returns bytes or the corrupt input error; it does not
    panic. *)
Lemma DecodeString_no_panic (enc : Encoding) (s : string) (p : panic) :
  DecodeString enc s <> Panic p.
Proof.
  unfold DecodeString. revert p. generalize (@nil Z) as dbuf.
  generalize O as j.
  induction s as [|c s IH]; intros j dbuf p; cbn [decode_loop].
  - destruct j as [|[|j]]; try discriminate.
    destruct (padChar enc); discriminate.
  - destruct (negb (decodeMap enc c =? 255)).
    + destruct (j =? 3)%nat; [|apply IH].
      destruct (decode_loop enc 0 [] s) as [tl|e|q] eqn:E; cbn [bindR];
        try discriminate.
      intros [= ->]. now destruct (IH O [] p).
    + destruct (is_newline c); [apply IH|].
      destruct (is_pad enc c); [apply decode_padding_no_panic|discriminate].
Qed.

(** X12.  Without GCM, no input makes a cipher panic.  For every cipher
    built from [DefaultCipher], [CFBCipher] on blocks of 16 bytes and
    [Base64Cipher], however nested, [Decrypt] on any bytes and [Encrypt] on
    any value under any reader return bytes or an error. *)
Theorem gcm_free_no_panic `{Crypto} (c : Cipher)
    (input : bytes) (rd : Reader) (p : panic) :
  gcm_free c -> aes_blocks c ->
  Decrypt c input <> Panic p /\ fst (Encrypt c input rd) <> Panic p.
Proof.
  revert input rd p.
  induction c as [|inner IH|b|b]; cbn [gcm_free aes_blocks];
    intros input rd p Hfree Hblk.
  - split; discriminate.
  - cbn [Decrypt Encrypt].
    unfold Base64Cipher_Decrypt, Base64Cipher_Encrypt. split.
    + destruct (DecodeString StdEncoding (string_of_bytes input))
        as [enc|e|q] eqn:E; [apply (IH enc rd p Hfree Hblk)|discriminate|].
      now destruct (DecodeString_no_panic _ _ _ E).
    + destruct (Encrypt inner input rd) as [[ct|e|q] rd'] eqn:E;
        cbn [fst]; try discriminate.
      destruct (IH input rd q Hfree Hblk) as [_ Hn]. rewrite E in Hn.
      now destruct Hn.
  - cbn [Decrypt Encrypt]. split.
    + destruct (CFBCipher_Decrypt_total b input Hblk) as [Hshort Hlong].
      destruct (Nat.lt_ge_cases (length input) 16) as [Hl | Hl].
      * rewrite (Hshort Hl). discriminate.
      * destruct (Hlong Hl) as (pt & -> & _). discriminate.
    + unfold CFBCipher_Encrypt.
      destruct (io_ReadFull aes_BlockSize rd) as [[iv|e|q] rd'] eqn:E;
        cbn [fst]; try discriminate.
      * unfold NewCFBEncrypter, newCFB.
        rewrite (io_ReadFull_length _ _ _ _ E), Hblk, Nat.eqb_refl.
        discriminate.
      * now destruct (io_ReadFull_no_panic _ _ _ _ E).
  - contradiction.
Qed.

(** The base64 decorator twice over CFB, on the text [!]. *)
Lemma gcm_free_no_panic_witness :
  @Decrypt demo_Crypto
    (Base64Cipher (Base64Cipher
       (CFBCipher (mkBlock 16 (demo_encryptBlock (repeat x00 16))))))
    (bytes_of_string "!")
    <> Panic SliceBoundsOutOfRange /\
  fst (@Encrypt demo_Crypto
         (Base64Cipher (Base64Cipher
            (CFBCipher (mkBlock 16 (demo_encryptBlock (repeat x00 16))))))
         (bytes_of_string "!") counting_Reader)
    <> Panic SliceBoundsOutOfRange.
Proof.
  apply (@gcm_free_no_panic demo_Crypto
           (Base64Cipher (Base64Cipher
              (CFBCipher (mkBlock 16 (demo_encryptBlock (repeat x00 16))))))
           (bytes_of_string "!") counting_Reader SliceBoundsOutOfRange).
  - exact I.
  - reflexivity.
Defined.

Lemma DefaultCipher_roundtrips `{Crypto} : roundtrips DefaultCipher.
Proof.
  intros v rd. cbn [Encrypt Decrypt].
  unfold DefaultCipher_Encrypt, DefaultCipher_Decrypt, pureM. split.
  - intros ct rd' [= <- _]. reflexivity.
  - intros _. eauto.
Qed.

(** X13.  Decrypting inverts encrypting for every cipher value.  With
    GCM keeping the contract of an AEAD, every cipher built from
    [DefaultCipher], [CFBCipher] and [GCMCipher] on blocks of 16 bytes, and
    [Base64Cipher] over any of these to any depth, decrypts what it
    encrypts to the payload, and encrypts whenever the reader does not
    fail. *)
Theorem every_cipher_roundtrips `{Crypto} (c : Cipher) :
  GCM_correct -> aes_blocks c -> roundtrips c.
Proof.
  intros Hgcm. induction c as [|inner IH|b|b]; cbn [aes_blocks]; intros Hblk.
  - apply DefaultCipher_roundtrips.
  - apply Base64Cipher_roundtrips, IH, Hblk.
  - apply CFBCipher_roundtrips, Hblk.
  - destruct (Hgcm b Hblk) as (g & Hg & Hlaw).
    eapply GCMCipher_roundtrips; eauto.
Qed.

(** The base64 decorator twice over GCM. *)
Lemma every_cipher_roundtrips_witness :
  @roundtrips demo_Crypto
    (Base64Cipher (Base64Cipher
       (GCMCipher (mkBlock 16 (demo_encryptBlock (repeat x00 16)))))).
Proof.
  apply (@every_cipher_roundtrips demo_Crypto
           (Base64Cipher (Base64Cipher
              (GCMCipher (mkBlock 16 (demo_encryptBlock (repeat x00 16))))))).
  - exact demo_GCM_correct.
  - reflexivity.
Defined.

(* ================================================================== *)
(** * The ciphers under the envelope *)

(** X14.  The whole path of a cookie value.  When a cipher that decrypts
    what it encrypts has encrypted a payload, the ciphertext signed at now
    is, inside the window, returned by [Validate] as it was, and decrypts to
    the payload. *)
Theorem encrypt_sign_validate_decrypt `{Crypto} (c : Cipher)
    (seed name : string) (payload ct : bytes) (rd : Reader) (now : Time)
    (expiration : Duration) (clk : Clock) :
  roundtrips c ->
  fst (Encrypt c payload rd) = Ok ct ->
  - 2 ^ 63 <= Time_Unix now < 2 ^ 63 ->
  - 2 ^ 63 < expiration < 2 ^ 63 ->
  in_window clk expiration (Time_Unix now) ->
  exists envelope value,
    SignedValue seed name ct now = Ok envelope /\
    Validate (Some (mkCookie name envelope)) seed expiration clk
      = Ok (Some value, time_Unix (Time_Unix now) 0, true) /\
    Decrypt c value = Ok payload.
Proof.
  intros Hc HE Hnow Hexp [Hlo Hhi].
  change (5 * time_Minute) with (300 * time_Second) in Hhi.
  destruct (Validate_SignedValue seed name ct now expiration clk Hnow Hexp)
    as (env & HS & HV).
  apply Z.ltb_lt in Hlo, Hhi. rewrite Hlo, Hhi in HV. cbn [andb] in HV.
  exists env, ct. split; [exact HS|]. split; [exact HV|].
  destruct (Encrypt c payload rd) as [r rd'] eqn:E. cbn [fst] in HE. subst r.
  exact (proj1 (Hc payload rd) ct rd' E).
Qed.

(** The address of the example under the CFB cipher of [demo_Crypto]. *)
Lemma encrypt_sign_validate_decrypt_witness :
  exists envelope value,
    SignedValue ex_seed ex_name
      (match fst (@Encrypt demo_Crypto
                    (CFBCipher (mkBlock 16 (demo_encryptBlock (repeat x00 16))))
                    ex_value counting_Reader) with
       | Ok ct => ct
       | _ => []
       end) (time_Unix ex_T 0) = Ok envelope /\
    Validate (Some (mkCookie ex_name envelope)) ex_seed one_hour
             (clock_at (time_Unix (ex_T + 60) 0))
      = Ok (Some value, time_Unix (Time_Unix (time_Unix ex_T 0)) 0, true) /\
    @Decrypt demo_Crypto
      (CFBCipher (mkBlock 16 (demo_encryptBlock (repeat x00 16)))) value
      = Ok ex_value.
Proof.
  apply (@encrypt_sign_validate_decrypt demo_Crypto
           (CFBCipher (mkBlock 16 (demo_encryptBlock (repeat x00 16))))
           ex_seed ex_name ex_value _ counting_Reader (time_Unix ex_T 0)
           one_hour (clock_at (time_Unix (ex_T + 60) 0))).
  - apply CFBCipher_roundtrips. reflexivity.
  - vm_compute. reflexivity.
  - vm_compute. split; [discriminate|reflexivity].
  - vm_compute. split; reflexivity.
  - vm_compute. split; reflexivity.
Defined.

(** X15.  The least int64 as expiration.  [expiration*-1] wraps for the
    least int64, so this negative expiration acts as one of 2^63
    nanoseconds: a cookie of three fields with a verified signature and a
    timestamp T that parses is accepted exactly when T is less than 2^63
    nanoseconds before the first reading of the clock and before the second
    reading plus five minutes, and its value decodes. *)
Theorem Validate_least_expiration
    (name value seed p0 p1 p2 : string) (T : Z) (clk : Clock) :
  strings_Split value "|"%char = [p0; p1; p2] ->
  checkSignature p2 [seed; name; p0; p1] = Ok true ->
  strconv_Atoi p1 = Ok T ->
  exists v ok,
    Validate (Some (mkCookie name value)) seed (- 2 ^ 63) clk
      = Ok (v, time_Unix T 0, ok) /\
    (ok = true <->
     (clk 0%nat - 2 ^ 63 < T * time_Second < clk 1%nat + 5 * time_Minute /\
      exists raw, DecodeString URLEncoding p0 = Ok raw)).
Proof.
  intros Hsplit Hsig Hts. unfold Validate. cbn [Value Name].
  rewrite Hsplit, Hsig. cbn [bindR]. rewrite Hts.
  unfold time_Now. cbn [fst]. rewrite five_minutes.
  change (Duration_mul (- 2 ^ 63) (-1)) with (- 2 ^ 63).
  unfold Time_After, Time_Before, Time_Add, time_Unix.
  rewrite Z.add_0_r. change (5 * time_Minute) with (300 * time_Second).
  destruct (clk 0%nat + - 2 ^ 63 <? T * time_Second) eqn:Elo;
    [apply Z.ltb_lt in Elo | apply Z.ltb_ge in Elo];
    (destruct (T * time_Second <? clk 1%nat + 300 * time_Second) eqn:Ehi;
     [apply Z.ltb_lt in Ehi | apply Z.ltb_ge in Ehi]); cbn [andb].
  1: destruct (DecodeString URLEncoding p0) as [raw|e|p] eqn:Edec.
  1: { exists (Some raw), true. split; [reflexivity|].
       split; [intros _|reflexivity]. split; [lia|]. exists raw. reflexivity. }
  all: exists None, false; split; [reflexivity|];
       split; [discriminate|]; intros [Hw [raw Hraw]];
       first [discriminate Hraw | lia].
Qed.

(** The example cookie, ten years after it was issued. *)
Lemma Validate_least_expiration_witness :
  exists v ok,
    Validate (Some (mkCookie ex_name ex_cookie)) ex_seed (- 2 ^ 63)
             (clock_at (time_Unix (ex_T + 315360000) 0))
      = Ok (v, time_Unix ex_T 0, ok) /\
    (ok = true <->
     (clock_at (time_Unix (ex_T + 315360000) 0) 0%nat - 2 ^ 63
        < ex_T * time_Second
        < clock_at (time_Unix (ex_T + 315360000) 0) 1%nat + 5 * time_Minute /\
      exists raw, DecodeString URLEncoding ex_p0 = Ok raw)).
Proof.
  apply (Validate_least_expiration ex_name ex_cookie ex_seed
           ex_p0 ex_p1 ex_p2 ex_T
           (clock_at (time_Unix (ex_T + 315360000) 0)));
    vm_compute; reflexivity.
Defined.

(** The example cookie is indeed accepted ten years on under the least
    expiration, and rejected under an expiration of minus one second. *)
Example Validate_negative_expirations :
  Validate (Some (mkCookie ex_name ex_cookie)) ex_seed (- 2 ^ 63)
           (clock_at (time_Unix (ex_T + 315360000) 0))
    = Ok (Some ex_value, time_Unix ex_T 0, true) /\
  Validate (Some (mkCookie ex_name ex_cookie)) ex_seed (- time_Second)
           (clock_at (time_Unix ex_T 0))
    = Ok (None, time_Unix ex_T 0, false).
Proof. vm_compute. repeat split; reflexivity. Qed.

(* ================================================================== *)
(** * GCM and the base64 decorator *)

(** X16.  What [GCMCipher.Encrypt] returns.  With a GCM that keeps the
    contract of an AEAD: when the reader delivers as many bytes as the nonce
    has, the result starts with these bytes, the rest opens under them to
    the value, and the reader is left that many bytes further; when one of
    these reads fails, the result is the reader's error itself, not wrapped
    as [CFBCipher.Encrypt] wraps it. *)
Theorem GCMCipher_Encrypt_result `{Crypto}
    (c : Block) (g : AEAD) (value : bytes) (rd : Reader) :
  cipher_NewGCM c = Ok g -> AEAD_correct g ->
  ((forall i, (i < NonceSize g)%nat -> rd i <> None) ->
   exists ct,
     GCMCipher_Encrypt c value rd = (Ok ct, fun i => rd (NonceSize g + i)%nat) /\
     (forall i, (i < NonceSize g)%nat -> rd i = Some (nth i ct x00)) /\
     Open g [] (firstn (NonceSize g) ct) (skipn (NonceSize g) ct) []
       = Ok value) /\
  ((exists i, (i < NonceSize g)%nat /\ rd i = None) ->
   fst (GCMCipher_Encrypt c value rd) = Err ErrReader).
Proof.
  intros Hg Hlaw. unfold GCMCipher_Encrypt. rewrite Hg. split.
  - intros Hrd.
    destruct (io_ReadFull_delivers (NonceSize g) rd Hrd)
      as (nonce & -> & Hlen & Hnth).
    destruct (Hlaw nonce nonce value [] Hlen) as (sealed & -> & HO).
    eexists. split; [reflexivity|]. split.
    + intros i Hi. rewrite app_nth1 by lia. now apply Hnth.
    + rewrite <- Hlen. now rewrite firstn_app_exact, skipn_app_exact.
  - intros (i & Hi & Hnone).
    destruct (io_ReadFull_fails (NonceSize g) rd i Hi Hnone) as (rd' & ->).
    reflexivity.
Qed.

(** The GCM of [demo_Crypto] and the reader that counts. *)
Lemma GCMCipher_Encrypt_result_witness :
  ((forall i, (i < 12)%nat -> counting_Reader i <> None) ->
   exists ct,
     @GCMCipher_Encrypt demo_Crypto
       (mkBlock 16 (demo_encryptBlock (repeat x00 16))) [x01; x02; x03]
       counting_Reader
     = (Ok ct, fun i => counting_Reader (12 + i)%nat) /\
     (forall i, (i < 12)%nat -> counting_Reader i = Some (nth i ct x00)) /\
     demo_Open (mkBlock 16 (demo_encryptBlock (repeat x00 16))) []
       (firstn 12 ct) (skipn 12 ct) [] = Ok [x01; x02; x03]) /\
  ((exists i, (i < 12)%nat /\ counting_Reader i = None) ->
   fst (@GCMCipher_Encrypt demo_Crypto
          (mkBlock 16 (demo_encryptBlock (repeat x00 16))) [x01; x02; x03]
          counting_Reader) = Err ErrReader).
Proof.
  apply (@GCMCipher_Encrypt_result demo_Crypto
           (mkBlock 16 (demo_encryptBlock (repeat x00 16)))
           (mkAEAD 12 16
              (demo_Seal (mkBlock 16 (demo_encryptBlock (repeat x00 16))))
              (demo_Open (mkBlock 16 (demo_encryptBlock (repeat x00 16)))))
           [x01; x02; x03] counting_Reader).
  - reflexivity.
  - apply demo_AEAD_correct.
Defined.

(** The padded text of n bytes has four characters for every three bytes
    or part of three. *)
Lemma EncodeToString_length (src : bytes) :
  String.length (EncodeToString StdEncoding src)
  = (4 * ((length src + 2) / 3))%nat.
Proof.
  induction src as [|x|x y|x y z l IH] using bytes_ind3;
    try reflexivity.
  cbn [EncodeToString String.length length]. rewrite IH.
  replace (S (S (S (length l))) + 2)%nat with (1 * 3 + (length l + 2))%nat
    by lia.
  rewrite Nat.div_add_l by discriminate. lia.
Qed.

(** X17.  The framing of the base64 decorator.  Over any cipher, when
    [Base64Cipher.Encrypt] returns bytes, the cipher in its field returned
    bytes too, under the same reader; the result is their standard base64
    text, which decodes back to them, and has four bytes for every three
    bytes or part of three. *)
Theorem Base64Cipher_Encrypt_framing `{Crypto}
    (inner : Cipher) (value out : bytes) (rd rd' : Reader) :
  Encrypt (Base64Cipher inner) value rd = (Ok out, rd') ->
  exists ct,
    Encrypt inner value rd = (Ok ct, rd') /\
    DecodeString StdEncoding (string_of_bytes out) = Ok ct /\
    length out = (4 * ((length ct + 2) / 3))%nat.
Proof.
  cbn [Encrypt]. unfold Base64Cipher_Encrypt.
  destruct (Encrypt inner value rd) as [[ct|e|p] rd1];
    [|discriminate|discriminate].
  intros [= <- <-]. exists ct. split; [reflexivity|].
  rewrite string_of_bytes_of_string. split.
  - apply DecodeString_EncodeToString, StdEncoding_ok.
  - rewrite length_bytes_of_string. apply EncodeToString_length.
Qed.

(** The decorator over [DefaultCipher], on the text [hello]. *)
Lemma Base64Cipher_Encrypt_framing_witness :
  exists ct,
    @Encrypt demo_Crypto DefaultCipher (bytes_of_string "hello") counting_Reader
      = (Ok ct, counting_Reader) /\
    DecodeString StdEncoding
      (string_of_bytes (bytes_of_string "aGVsbG8=")) = Ok ct /\
    length (bytes_of_string "aGVsbG8=") = (4 * ((length ct + 2) / 3))%nat.
Proof.
  apply (@Base64Cipher_Encrypt_framing demo_Crypto DefaultCipher
           (bytes_of_string "hello") (bytes_of_string "aGVsbG8=")
           counting_Reader counting_Reader).
  reflexivity.
Defined.
